(** * algoliasearch-node: the request dispatcher, the host pool and the
      task poller of [algoliasearch-node.js], embedded in Rocq.

    The JavaScript of the client is translated function by function.
    - JavaScript strings are sequences of UTF-16 code units ([list N]).
    - JavaScript values are the inductive [value]; numbers are the integers,
      which JavaScript holds exactly and prints in plain decimal up to 2^53
      (floating point is outside the model).
    - The prototype of [AlgoliaSearch] owns the array [hosts]; every client
      reads and mutates that one array, so it lives in the shared [world].
    - The network is an oracle: the n-th request of a run is answered either
      by a transport error or by a complete response.  The requests issued
      are recorded in the world, in order.
    - A callback-passing function becomes a function that returns what its
      callback is invoked with; an exception that nobody catches is the
      result [Uncaught]. *)

From Stdlib Require Import ZArith NArith List String Ascii Bool Lia Permutation DecimalString.
From stdpp Require Import base gmap list strings.

Set Warnings "-register-all".
Local Open Scope N_scope.

(** ** Strings *)

Abbreviation jsstring := (list N) (only parsing).

(** A string literal of the source, as code units. *)
Definition lit (s : string) : jsstring :=
  map N_of_ascii (list_ascii_of_string s).

(** [s.indexOf(pat)]: the first position at which [pat] occurs, or -1. *)
Fixpoint starts_with (pat s : jsstring) : bool :=
  match pat, s with
  | [], _ => true
  | _ :: _, [] => false
  | p :: pat', c :: s' => (p =? c) && starts_with pat' s'
  end.

Fixpoint indexOf_from (pos : Z) (s pat : jsstring) : Z :=
  if starts_with pat s then pos
  else match s with
       | [] => (-1)%Z
       | _ :: s' => indexOf_from (pos + 1)%Z s' pat
       end.

Definition indexOf (s pat : jsstring) : Z := indexOf_from 0%Z s pat.

(** [s.split(sep)] for a separator of one code unit. *)
Fixpoint split (sep : N) (s : jsstring) : list jsstring :=
  match s with
  | [] => [[]]
  | c :: s' =>
      if c =? sep then [] :: split sep s'
      else match split sep s' with
           | [] => [[c]]
           | piece :: pieces => (c :: piece) :: pieces
           end
  end.

(** [s.toLowerCase()].  It is applied to a header value only, which node
    decodes as Latin-1: the letters A-Z, and À-Þ but the multiplication
    sign, move down by 32. *)
Definition lower_unit (c : N) : N :=
  if ((65 <=? c) && (c <=? 90)) || ((192 <=? c) && (c <=? 222) && negb (c =? 215))
  then c + 32 else c.

Definition toLowerCase (s : jsstring) : jsstring := map lower_unit s.

(** *** UTF-8, as [new Buffer(s, 'utf8')] and [req.write(s, 'utf8')] write it *)

Definition is_high_surrogate (c : N) : bool := (0xD800 <=? c) && (c <=? 0xDBFF).
Definition is_low_surrogate (c : N) : bool := (0xDC00 <=? c) && (c <=? 0xDFFF).

Definition code_point (hi lo : N) : N :=
  0x10000 + (hi - 0xD800) * 0x400 + (lo - 0xDC00).

Definition utf8_of_code_point (cp : N) : list N :=
  if cp <? 0x80 then [cp]
  else if cp <? 0x800 then [0xC0 + cp / 0x40; 0x80 + cp mod 0x40]
  else if cp <? 0x10000 then
    [0xE0 + cp / 0x1000; 0x80 + (cp / 0x40) mod 0x40; 0x80 + cp mod 0x40]
  else
    [0xF0 + cp / 0x40000; 0x80 + (cp / 0x1000) mod 0x40;
     0x80 + (cp / 0x40) mod 0x40; 0x80 + cp mod 0x40].

(** A surrogate without its partner is written as U+FFFD. *)
Definition replacement : N := 0xFFFD.

Fixpoint utf8_encode (s : jsstring) : list N :=
  match s with
  | [] => []
  | c :: rest =>
      if is_high_surrogate c then
        match rest with
        | d :: rest' =>
            if is_low_surrogate d
            then utf8_of_code_point (code_point c d) ++ utf8_encode rest'
            else utf8_of_code_point replacement ++ utf8_encode rest
        | [] => utf8_of_code_point replacement
        end
      else if is_low_surrogate c
      then utf8_of_code_point replacement ++ utf8_encode rest
      else utf8_of_code_point c ++ utf8_encode rest
  end.

(** *** [encodeURIComponent] on a string *)

Definition is_unreserved (c : N) : bool :=
  ((48 <=? c) && (c <=? 57)) || ((65 <=? c) && (c <=? 90))
  || ((97 <=? c) && (c <=? 122))
  || existsb (N.eqb c) (lit "-_.!~*'()").

Definition hex_digit (d : N) : N := if d <? 10 then 48 + d else 55 + d.

Definition percent (byte : N) : jsstring :=
  [37; hex_digit (byte / 16); hex_digit (byte mod 16)].

Definition percent_all (bytes : list N) : jsstring :=
  concat (map percent bytes).

(** [None] is the URIError of a surrogate without its partner. *)
Fixpoint encodeURI_units (s : jsstring) : option jsstring :=
  match s with
  | [] => Some []
  | c :: rest =>
      if is_unreserved c then option_map (cons c) (encodeURI_units rest)
      else if is_low_surrogate c then None
      else if is_high_surrogate c then
        match rest with
        | d :: rest' =>
            if is_low_surrogate d
            then option_map (app (percent_all (utf8_of_code_point (code_point c d))))
                            (encodeURI_units rest')
            else None
        | [] => None
        end
      else option_map (app (percent_all (utf8_of_code_point c))) (encodeURI_units rest)
  end.

(** ** Values *)

Inductive value : Type :=
| VUndefined
| VNull
| VBool (b : bool)
| VNum (n : Z)
| VStr (s : jsstring)
| VArr (xs : list value)
| VObj (props : list (jsstring * value)).

Definition isUndefined (v : value) : bool :=
  match v with VUndefined => true | _ => false end.

Definition is_null (v : value) : bool :=
  match v with VNull => true | _ => false end.

(** Truthiness, as [if (v)] and [a && b] test it. *)
Definition truthy (v : value) : bool :=
  match v with
  | VUndefined | VNull => false
  | VBool b => b
  | VNum n => negb (n =? 0)%Z
  | VStr s => match s with [] => false | _ => true end
  | VArr _ | VObj _ => true
  end.

Definition jsstring_eqb (a b : jsstring) : bool := bool_decide (a = b).

(** [v === 'text']. *)
Definition strict_eq_string (v : value) (text : jsstring) : bool :=
  match v with VStr s => jsstring_eqb s text | _ => false end.

(** [v === n] for an integer literal [n]. *)
Definition strict_eq_num (v : value) (n : Z) : bool :=
  match v with VNum m => (m =? n)%Z | _ => false end.

Fixpoint own_property (props : list (jsstring * value)) (key : jsstring) : value :=
  match props with
  | [] => VUndefined
  | (k, v) :: props' => if jsstring_eqb k key then v else own_property props' key
  end.

Inductive exn : Type := TypeError | SyntaxError | URIError.

(** [v.key] for the keys the client reads: [message], [status],
    [pendingTask], [objectID] and [length].  Reading a property of
    [undefined] or [null] throws; a string or an array has a [length] and
    none of the other keys; a missing property reads as [undefined]. *)
Definition get (v : value) (key : jsstring) : option value :=
  match v with
  | VUndefined | VNull => None
  | VObj props => Some (own_property props key)
  | VStr s =>
      Some (if jsstring_eqb key (lit "length") then VNum (Z.of_nat (length s)) else VUndefined)
  | VArr xs =>
      Some (if jsstring_eqb key (lit "length") then VNum (Z.of_nat (length xs)) else VUndefined)
  | VBool _ | VNum _ => Some VUndefined
  end.

(** [String(v)], the conversion that [+] with a string and
    [encodeURIComponent] apply. *)
Fixpoint ToString (v : value) : jsstring :=
  match v with
  | VUndefined => lit "undefined"
  | VNull => lit "null"
  | VBool true => lit "true"
  | VBool false => lit "false"
  | VNum n => lit (NilZero.string_of_int (Z.to_int n))
  | VStr s => s
  | VArr xs =>
      (fix join (l : list value) : jsstring :=
         match l with
         | [] => []
         | x :: l' =>
             let piece := match x with
                          | VUndefined | VNull => []
                          | _ => ToString x
                          end in
             match l' with
             | [] => piece
             | _ :: _ => piece ++ 44 :: join l'
             end
         end) xs
  | VObj _ => lit "[object Object]"
  end.

Definition encodeURIComponent (v : value) : option jsstring :=
  encodeURI_units (ToString v).

(** ** The client, the requests and the world *)

(** The own fields of an [AlgoliaSearch] object.  [hosts] is not among
    them: the constructor never assigns [this.hosts], so the name resolves
    to the array of the prototype, which is part of the [world]. *)
Record client : Type := {
  applicationID : value;
  apiKey : value;
  httpsAgent : value;
  forwardAdminAPIKey : value;
  forwardEndUserIP : value;
  forwardLimitAPIKey : value
}.

(** The object literal a method hands to [_jsonRequest]; [body] is
    [VUndefined] when the literal has no [body].  The fields [callback] and
    [hostname] are handled by the functions below. *)
Record options : Type := {
  method : jsstring;
  url : jsstring;
  body : value
}.

(** [reqOpts], the argument of [https.request]. *)
Record request_options : Type := {
  ro_method : jsstring;
  ro_hostname : value;
  ro_port : value;
  ro_path : jsstring;
  ro_headers : gmap jsstring value;
  ro_agent : option value
}.

(** One network attempt: the options and the bytes written, if any. *)
Record request : Type := {
  req_options : request_options;
  req_written : option (list N)
}.

(** A complete response: [res.statusCode], [res.headers] and the text of
    the chunks received. *)
Record response : Type := {
  statusCode : Z;
  headers : gmap jsstring jsstring;
  chunks : jsstring
}.

(** What the transport does with a request: the 'error' event with its
    error, or a response followed by its 'end' event. *)
Inductive reply : Type :=
| TransportError (e : value)
| Response (res : response).

(** The state shared by everything: the [hosts] array of the prototype,
    an array of strings; the requests issued so far; the lines written by
    [console.log]; and the journal of the logical calls handed to
    [_jsonRequest]. *)
Record world : Type := {
  hosts : list jsstring;
  sent : list request;
  console : list jsstring;
  calls : list options
}.

Definition set_hosts (pool : list jsstring) (w : world) : world :=
  {| hosts := pool; sent := sent w; console := console w; calls := calls w |}.

Definition record_request (r : request) (w : world) : world :=
  {| hosts := hosts w; sent := sent w ++ [r]; console := console w; calls := calls w |}.

Definition console_log (line : jsstring) (w : world) : world :=
  {| hosts := hosts w; sent := sent w; console := console w ++ [line]; calls := calls w |}.

Definition record_call (o : options) (w : world) : world :=
  {| hosts := hosts w; sent := sent w; console := console w; calls := calls w ++ [o] |}.

(** How an asynchronous function ends. *)
Inductive completion (A : Type) : Type :=
| Resolved (a : A)
| Uncaught (e : exn)
| Unfinished.
Arguments Resolved {A} a.
Arguments Uncaught {A} e.
Arguments Unfinished {A}.

(** ** Rate-limit forwarding *)

Definition enableRateLimitForward (this : client)
    (adminAPIKey endUserIP rateLimitAPIKey : value) : client :=
  {| applicationID := applicationID this;
     apiKey := apiKey this;
     httpsAgent := httpsAgent this;
     forwardAdminAPIKey := adminAPIKey;
     forwardEndUserIP := endUserIP;
     forwardLimitAPIKey := rateLimitAPIKey |}.

Definition disableRateLimitForward (this : client) : client :=
  {| applicationID := applicationID this;
     apiKey := apiKey this;
     httpsAgent := httpsAgent this;
     forwardAdminAPIKey := VNull;
     forwardEndUserIP := VNull;
     forwardLimitAPIKey := VNull |}.

(** ** The constructor *)

Definition default_hosts (applicationID : value) : list jsstring :=
  [ToString applicationID ++ lit "-1.algolia.io";
   ToString applicationID ++ lit "-2.algolia.io";
   ToString applicationID ++ lit "-3.algolia.io"].

(** The loop of the constructor from index [i] on.  [random k] tells
    whether the k-th [Math.random()] of this construction is above 0.5. *)
Fixpoint add_hosts (random : nat -> bool) (i : nat)
    (hostsArray pool : list jsstring) : list jsstring :=
  match hostsArray with
  | [] => pool
  | h :: rest =>
      let pool := if random i then rev pool else pool in
      add_hosts random (S i) rest (pool ++ [h])
  end.

(** [new AlgoliaSearch(applicationID, apiKey, httpsAgent, hostsArray)];
    [hostsArray] is [None] when the argument is undefined. *)
Definition AlgoliaSearch (applicationID apiKey httpsAgent : value)
    (hostsArray : option (list jsstring)) (random : nat -> bool)
    (w : world) : client * world :=
  let hostsArray :=
    match hostsArray with
    | None => default_hosts applicationID
    | Some given => given
    end in
  let pool := add_hosts random 0 hostsArray (hosts w) in
  let pool := if random (length hostsArray) then rev pool else pool in
  (disableRateLimitForward
     {| applicationID := applicationID;
        apiKey := apiKey;
        httpsAgent := if isUndefined httpsAgent then VNull else httpsAgent;
        forwardAdminAPIKey := VUndefined;
        forwardEndUserIP := VUndefined;
        forwardLimitAPIKey := VUndefined |},
   set_hosts pool w).

(** The world of a process that has loaded the module and constructed no
    client yet: the prototype holds [hosts: []]. *)
Definition initial_world : world :=
  {| hosts := []; sent := []; console := []; calls := [] |}.

(** ** The request builder *)

(** [array[i]] on an array of strings. *)
Definition element (array : list jsstring) (i : nat) : value :=
  match array !! i with
  | Some s => VStr s
  | None => VUndefined
  end.

Definition colon : N := 58.

(** [_computeRequestOptions(opts, body)]; [hostname] is [opts.hostname],
    and [body] is [None] for [null] and the serialized text otherwise. *)
Definition _computeRequestOptions (this : client) (opts : options)
    (hostname : jsstring) (body : option jsstring) : request_options :=
  let hdrs : gmap jsstring value :=
    <[lit "User-Agent" := VStr (lit "Algolia for node.js")]>
      (<[lit "Content-Length" := VNum 0]>
         (<[lit "Connection" := VStr (lit "keep-alive")]>
            (<[lit "X-Algolia-API-Key" := apiKey this]>
               (<[lit "X-Algolia-Application-Id" := applicationID this]> ∅)))) in
  let hdrs :=
    if negb (is_null (forwardAdminAPIKey this)) then
      <[lit "X-Forwarded-For" := forwardEndUserIP this]>
        (<[lit "X-Forwarded-API-Key" := forwardLimitAPIKey this]>
           (<[lit "X-Algolia-API-Key" := forwardAdminAPIKey this]> hdrs))
    else hdrs in
  let target :=
    if negb (indexOf hostname [colon] =? -1)%Z then
      let n := split colon hostname in
      (element n 0, element n 1)
    else (VStr hostname, VNum 443) in
  let hdrs :=
    match body with
    | Some text =>
        <[lit "Content-Length" := VNum (Z.of_nat (length (utf8_encode text)))]>
          (<[lit "Content-Type" := VStr (lit "application/json")]> hdrs)
    | None => hdrs
    end in
  {| ro_method := method opts;
     ro_hostname := target.1;
     ro_port := target.2;
     ro_path := url opts;
     ro_headers := hdrs;
     ro_agent := if negb (is_null (httpsAgent this)) then Some (httpsAgent this) else None |}.

(** ** The dispatcher *)

Section Dispatcher.

(** The runtime's [JSON.stringify] and [JSON.parse] ([None]: the
    SyntaxError of a text that is not JSON), and the network. *)
Variable JSON_stringify : value -> jsstring.
Variable JSON_parse : jsstring -> option value.
Variable net : nat -> request -> reply.

Definition cannot_contact_server : value :=
  VObj [(lit "message", VStr (lit "Cannot contact server"))].

(** What [_jsonRequestByHost] passes to [opts.callback]. *)
Record attempt_result : Type := {
  ar_retry : bool;
  ar_error : bool;
  ar_res : option response;
  ar_body : value
}.

(** The handler of the 'end' event: decode the text of the response and
    invoke [opts.callback(retry, !success, res, body)]. *)
Definition on_end (res : response) : completion attempt_result :=
  let retry := (statusCode res =? 0)%Z || (statusCode res =? 503)%Z in
  let success := (statusCode res =? 200)%Z || (statusCode res =? 201)%Z in
  let body := chunks res in
  match headers res !! lit "content-type" with
  | None => Uncaught TypeError
  | Some content_type =>
      if (indexOf (toLowerCase content_type) (lit "application/json") >=? 0)%Z then
        match JSON_parse body with
        | None => Uncaught SyntaxError
        | Some parsed =>
            Resolved {| ar_retry := retry; ar_error := negb success;
                        ar_res := Some res; ar_body := parsed |}
        end
      else
        Resolved {| ar_retry := retry; ar_error := negb success;
                    ar_res := Some res; ar_body := VStr body |}
  end.

(** The request of one attempt: [reqOpts] as [_jsonRequestByHost]
    computes it, and what [req.write(body, 'utf8')] writes. *)
Definition request_for (this : client) (opts : options)
    (hostname : jsstring) : request :=
  let body :=
    if negb (isUndefined (body opts)) then Some (JSON_stringify (body opts))
    else None in
  let reqOpts := _computeRequestOptions this opts hostname body in
  {| req_options := reqOpts; req_written := option_map utf8_encode body |}.

(** The two handlers [_jsonRequestByHost] installs on the request. *)
Definition on_reply (r : reply) : completion attempt_result :=
  match r with
  | TransportError e =>
      Resolved {| ar_retry := true; ar_error := true; ar_res := None;
                  ar_body := VObj [(lit "message", e)] |}
  | Response res => on_end res
  end.

(** [_jsonRequestByHost(opts)] with [opts.hostname = hostname]: one
    network attempt, the next of the run. *)
Definition _jsonRequestByHost (this : client) (opts : options)
    (hostname : jsstring) (w : world) : world * completion attempt_result :=
  let req := request_for this opts hostname in
  (record_request req w, on_reply (net (length (sent w)) req)).

(** What the caller's callback receives: [(error, res, body)]. *)
Record call_result : Type := {
  cr_error : bool;
  cr_res : option response;
  cr_body : value
}.

(** [callback(error, res, body)], the last three arguments passed on. *)
Definition result_of (r : attempt_result) : call_result :=
  {| cr_error := ar_error r; cr_res := ar_res r; cr_body := ar_body r |}.

(** The first statement of the callback installed by [impl]:
    [if (error && !_.isUndefined(body)) console.log('Error: ' + body.message)]. *)
Definition log_failure (r : attempt_result) (w : world) : option world :=
  if ar_error r && negb (isUndefined (ar_body r)) then
    match get (ar_body r) (lit "message") with
    | None => None
    | Some message => Some (console_log (lit "Error: " ++ ToString message) w)
    end
  else Some w.

(** [var idx = 0; if (!_.isUndefined(position)) idx = position;] *)
Definition index_of_position (position : option nat) : nat :=
  match position with Some p => p | None => 0%nat end.

(** [impl(position)].  Each recursive call comes from the callback of the
    attempt before it; [fuel] bounds their number. *)
Fixpoint impl (fuel : nat) (this : client) (opts : options)
    (position : option nat) (w : world) : world * completion call_result :=
  let idx := index_of_position position in
  if (length (hosts w) <=? idx)%nat then
    (w, Resolved {| cr_error := true; cr_res := None; cr_body := cannot_contact_server |})
  else
    match fuel with
    | O => (w, Unfinished)
    | S fuel' =>
        let hostname := nth idx (hosts w) [] in
        match _jsonRequestByHost this opts hostname w with
        | (w1, Uncaught e) => (w1, Uncaught e)
        | (w1, Unfinished) => (w1, Unfinished)
        | (w1, Resolved r) =>
            match log_failure r w1 with
            | None => (w1, Uncaught TypeError)
            | Some w2 =>
                if ar_retry r && ar_error r && (idx + 1 <? length (hosts w2))%nat
                then impl fuel' this opts (Some (idx + 1)%nat) w2
                else (w2, Resolved (result_of r))
            end
        end
    end.

(** [_jsonRequest(opts)]: one logical call.  The pool has [length (hosts w)]
    entries, and that many attempts are all that [impl] can make. *)
Definition _jsonRequest (this : client) (opts : options) (w : world)
    : world * completion call_result :=
  impl (length (hosts w)) this opts None (record_call opts w).

End Dispatcher.

(** ** The methods of an index *)

(** [new Index(algoliasearch, indexName)]; the field [as] of the source is
    [as_] here. *)
Record index : Type := {
  indexName : value;
  as_ : client
}.

(** What a method passes to the callback of its caller: [(error, content)]. *)
Record answer : Type := {
  error : bool;
  content : value
}.

Section Index.

Variable JSON_stringify : value -> jsstring.
Variable JSON_parse : jsstring -> option value.
Variable net : nat -> request -> reply.

(** The callback every method but [waitTask] installs:
    [if (!_.isUndefined(callback)) callback(error, body)].  [callback]
    tells whether the caller supplied one; [None] is a call that ends
    with nobody to tell. *)
Definition forward (callback : bool) (r : call_result) : option answer :=
  if callback then Some {| error := cr_error r; content := cr_body r |} else None.

Definition dispatch_and_forward (this : client) (opts : options)
    (callback : bool) (w : world) : world * completion (option answer) :=
  match _jsonRequest JSON_stringify JSON_parse net this opts w with
  | (w', Resolved r) => (w', Resolved (forward callback r))
  | (w', Uncaught e) => (w', Uncaught e)
  | (w', Unfinished) => (w', Unfinished)
  end.

Definition empty_objectID : value :=
  VObj [(lit "message", VStr (lit "empty objectID"))].

(** [deleteObject(objectID, callback)]. *)
Definition deleteObject (indexObj : index) (objectID : value)
    (callback : bool) (w : world) : world * completion (option answer) :=
  match (if is_null objectID then Some true
         else option_map (fun len => strict_eq_num len 0) (get objectID (lit "length"))) with
  | None => (w, Uncaught TypeError)
  | Some true =>
      if callback then (w, Resolved (Some {| error := false; content := empty_objectID |}))
      else (w, Uncaught TypeError)
  | Some false =>
      match encodeURIComponent (indexName indexObj), encodeURIComponent objectID with
      | Some name, Some id =>
          dispatch_and_forward (as_ indexObj)
            {| method := lit "DELETE";
               url := lit "/1/indexes/" ++ name ++ lit "/" ++ id;
               body := VUndefined |}
            callback w
      | _, _ => (w, Uncaught URIError)
      end
  end.

(** The loop shared, word for word but the action, by [saveObjects] and
    [partialUpdateObjects]: one entry
    [{ action, objectID: encodeURIComponent(objects[i].objectID), body: objects[i] }]
    per object. *)
Fixpoint update_requests (action : jsstring) (objects : list value)
    : exn + list value :=
  match objects with
  | [] => inr []
  | object :: rest =>
      match get object (lit "objectID") with
      | None => inl TypeError
      | Some id =>
          match encodeURIComponent id with
          | None => inl URIError
          | Some encoded =>
              match update_requests action rest with
              | inl e => inl e
              | inr requests =>
                  inr (VObj [(lit "action", VStr action);
                             (lit "objectID", VStr encoded);
                             (lit "body", object)] :: requests)
              end
          end
      end
  end.

Definition post_batch (action : jsstring) (indexObj : index)
    (objects : list value) (callback : bool) (w : world)
    : world * completion (option answer) :=
  match update_requests action objects with
  | inl e => (w, Uncaught e)
  | inr requests =>
      let postObj := VObj [(lit "requests", VArr requests)] in
      match encodeURIComponent (indexName indexObj) with
      | None => (w, Uncaught URIError)
      | Some name =>
          dispatch_and_forward (as_ indexObj)
            {| method := lit "POST";
               url := lit "/1/indexes/" ++ name ++ lit "/batch";
               body := postObj |}
            callback w
      end
  end.

(** [saveObjects(objects, callback)]. *)
Definition saveObjects : index -> list value -> bool -> world ->
    world * completion (option answer) :=
  post_batch (lit "updateObject").

(** [partialUpdateObjects(objects, callback)]. *)
Definition partialUpdateObjects : index -> list value -> bool -> world ->
    world * completion (option answer) :=
  post_batch (lit "partialUpdateObject").

(** The callback of [waitTask], but its recursive branch: [Some a] when
    it invokes the caller's callback with [a], [None] when it polls again. *)
Definition task_verdict (r : call_result) : exn + option answer :=
  if negb (cr_error r) then
    match get (cr_body r) (lit "status") with
    | None => inl TypeError
    | Some status =>
        if strict_eq_string status (lit "published")
        then inr (Some {| error := false; content := cr_body r |})
        else
          match get (cr_body r) (lit "pendingTask") with
          | None => inl TypeError
          | Some pendingTask =>
              if truthy pendingTask then inr None
              else inr (Some {| error := true; content := cr_body r |})
          end
    end
  else inr (Some {| error := true; content := cr_body r |}).

(** The object literal of [waitTask]; [name] is
    [encodeURIComponent(indexObj.indexName)]. *)
Definition status_check (name : jsstring) (taskID : value) : options :=
  {| method := lit "GET";
     url := lit "/1/indexes/" ++ name ++ lit "/task/" ++ ToString taskID;
     body := VUndefined |}.

(** [waitTask(taskID, callback)], for a [callback] that is a function.
    The source calls itself from its own callback with no bound; [fuel] is
    the number of polls allowed. *)
Fixpoint waitTask (fuel : nat) (indexObj : index) (taskID : value)
    (w : world) : world * completion answer :=
  match fuel with
  | O => (w, Unfinished)
  | S fuel' =>
      match encodeURIComponent (indexName indexObj) with
      | None => (w, Uncaught URIError)
      | Some name =>
          match _jsonRequest JSON_stringify JSON_parse net (as_ indexObj)
                  (status_check name taskID) w with
          | (w', Uncaught e) => (w', Uncaught e)
          | (w', Unfinished) => (w', Unfinished)
          | (w', Resolved r) =>
              match task_verdict r with
              | inl e => (w', Uncaught e)
              | inr (Some a) => (w', Resolved a)
              | inr None => waitTask fuel' indexObj taskID w'
              end
          end
      end
  end.

End Index.

(** ** Notions used in the statements *)

(** *** The three kinds of answers to a status check

    These name what the callback of [waitTask] tests, for a call that the
    dispatcher resolved without error. *)

(** [body.status === 'published']. *)
Definition is_published (r : call_result) : Prop :=
  cr_error r = false ∧
  ∃ status, get (cr_body r) (lit "status") = Some status ∧
            strict_eq_string status (lit "published") = true.

(** [body.pendingTask] is truthy and [body.status] is not ['published']. *)
Definition is_pending (r : call_result) : Prop :=
  cr_error r = false ∧
  ∃ status pendingTask,
    get (cr_body r) (lit "status") = Some status ∧
    strict_eq_string status (lit "published") = false ∧
    get (cr_body r) (lit "pendingTask") = Some pendingTask ∧
    truthy pendingTask = true.

(** Neither: [body.status] is not ['published'] and [body.pendingTask] is
    not truthy. *)
Definition is_neither (r : call_result) : Prop :=
  cr_error r = false ∧
  ∃ status pendingTask,
    get (cr_body r) (lit "status") = Some status ∧
    strict_eq_string status (lit "published") = false ∧
    get (cr_body r) (lit "pendingTask") = Some pendingTask ∧
    truthy pendingTask = false.

(** [body.pendingTask] is truthy, whatever [body.status] is. *)
Definition has_pending_flag (r : call_result) : Prop :=
  cr_error r = false ∧
  ∃ pendingTask, get (cr_body r) (lit "pendingTask") = Some pendingTask ∧
                 truthy pendingTask = true.

(** The entry of a batch for [object], with [encoded] as its objectID. *)
Definition batch_entry (action : jsstring) (object : value) (encoded : jsstring) : value :=
  VObj [(lit "action", VStr action); (lit "objectID", VStr encoded); (lit "body", object)].

(** [encoded] is [encodeURIComponent(object.objectID)]. *)
Definition encoded_objectID (object : value) (encoded : jsstring) : Prop :=
  ∃ id, get object (lit "objectID") = Some id ∧ encodeURIComponent id = Some encoded.

(** The log line of [impl] can be computed for [r]. *)
Definition can_log (r : attempt_result) : Prop :=
  ar_error r && negb (isUndefined (ar_body r)) = true →
  is_Some (get (ar_body r) (lit "message")).

(** The call that [saveObjects] and [partialUpdateObjects] hand to the
    dispatcher for [objects] and their encoded objectIDs; [name] is
    [encodeURIComponent(indexObj.indexName)]. *)
Definition batch_of (name action : jsstring) (objects : list value)
    (encoded : list jsstring) : options :=
  {| method := lit "POST";
     url := lit "/1/indexes/" ++ name ++ lit "/batch";
     body := VObj [(lit "requests", VArr (zip_with (batch_entry action) objects encoded))] |}.

Section Polling.

Variable JSON_stringify : value -> jsstring.
Variable JSON_parse : jsstring -> option value.
Variable net : nat -> request -> reply.
Variable this : client.
Variable opts : options.

(** [polled k w w']: from [w], [k] logical calls in a row are resolved
    with a pending answer, and leave the world [w']. *)
Inductive polled : nat → world → world → Prop :=
| polled_none w : polled 0 w w
| polled_more k w w1 w' r :
    _jsonRequest JSON_stringify JSON_parse net this opts w = (w1, Resolved r) →
    is_pending r → polled k w1 w' →
    polled (S k) w w'.

End Polling.

(** The header [name] of a request, if it is set. *)
Definition header_of (r : request) (name : string) : option value :=
  ro_headers (req_options r) !! lit name.

(** The hosts of the requests issued, in order. *)
Definition hosts_tried (w : world) : list value :=
  map (fun r => ro_hostname (req_options r)) (sent w).

(** ** Sample runtime and sample runs

    The theorems below hold for every serializer, parser and network.
    The following ones are used to run the client on concrete inputs. *)

Definition hex_digit_lower (d : N) : N := if d <? 10 then 48 + d else 87 + d.

Definition escape_unit (c : N) : jsstring :=
  if c =? 34 then [92; 34]
  else if c =? 92 then [92; 92]
  else if c =? 8 then [92; 98]
  else if c =? 9 then [92; 116]
  else if c =? 10 then [92; 110]
  else if c =? 12 then [92; 102]
  else if c =? 13 then [92; 114]
  else if c <? 32 then
    [92; 117; 48; 48; hex_digit_lower (c / 16); hex_digit_lower (c mod 16)]
  else [c].

Definition quote (s : jsstring) : jsstring :=
  34 :: concat (map escape_unit s) ++ [34].

(** [JSON.stringify] on the values of the model, without indentation: an
    [undefined] element of an array is written [null] and an [undefined]
    member of an object is left out.  ([request_for] never applies the
    serializer to [undefined] itself.) *)
Fixpoint stringify (v : value) : jsstring :=
  match v with
  | VUndefined | VNull => lit "null"
  | VBool true => lit "true"
  | VBool false => lit "false"
  | VNum n => lit (NilZero.string_of_int (Z.to_int n))
  | VStr s => quote s
  | VArr xs =>
      91 :: (fix elements (l : list value) : jsstring :=
               match l with
               | [] => []
               | x :: l' =>
                   match l' with
                   | [] => stringify x
                   | _ :: _ => stringify x ++ 44 :: elements l'
                   end
               end) xs ++ [93]
  | VObj props =>
      123 :: (fix members (l : list (jsstring * value)) (first : bool) : jsstring :=
                match l with
                | [] => []
                | (k, x) :: l' =>
                    match x with
                    | VUndefined => members l' first
                    | _ =>
                        (if first then [] else [44]) ++ quote k ++ 58 :: stringify x
                          ++ members l' false
                    end
                end) props true ++ [125]
  end.

(** [JSON.parse] on the texts of the values [known]: a text is parsed to
    the value it is the serialization of. *)
Definition parse_among (known : list value) (text : jsstring) : option value :=
  find (fun v => jsstring_eqb (stringify v) text) known.

Definition json_response (status : Z) (v : value) : response :=
  {| statusCode := status;
     headers := {[ lit "content-type" := lit "application/json; charset=UTF-8" ]};
     chunks := stringify v |}.

Definition html_response (status : Z) (text : jsstring) : response :=
  {| statusCode := status;
     headers := {[ lit "content-type" := lit "text/html" ]};
     chunks := text |}.

(** A response that carries no Content-Type header and no text. *)
Definition bare_response (status : Z) : response :=
  {| statusCode := status; headers := ∅; chunks := [] |}.

(** The network on which every request gets the same response. *)
Definition always (res : response) : nat -> request -> reply :=
  fun _ _ => Response res.

(** The network that answers the n-th request with the n-th reply of a
    script, and with a transport error once the script is over. *)
Definition scripted (script : list reply) : nat -> request -> reply :=
  fun n _ => nth n script (TransportError (VStr (lit "ECONNREFUSED"))).

Definition no_reversal : nat -> bool := fun _ => false.

Definition three_hosts : list jsstring :=
  [lit "a.example.com"; lit "b.example.com"; lit "c.example.com"].

Definition other_hosts : list jsstring :=
  [lit "d.example.com"; lit "e.example.com"; lit "f.example.com"].

(** [new AlgoliaSearch('APP', 'KEY', undefined, hostsArray)] as the first
    client of a process. *)
Definition first_client (hostsArray : list jsstring) : client * world :=
  AlgoliaSearch (VStr (lit "APP")) (VStr (lit "KEY")) VUndefined
    (Some hostsArray) no_reversal initial_world.

Definition list_indexes : options :=
  {| method := lit "GET"; url := lit "/1/indexes/"; body := VUndefined |}.

Definition books (c : client) : index :=
  {| indexName := VStr (lit "books"); as_ := c |}.

Definition task_pending : value :=
  VObj [(lit "status", VStr (lit "notPublished")); (lit "pendingTask", VBool true)].

Definition task_published : value :=
  VObj [(lit "status", VStr (lit "published")); (lit "pendingTask", VBool false)].

(** The task is published while other tasks of the index are pending. *)
Definition task_published_others_pending : value :=
  VObj [(lit "status", VStr (lit "published")); (lit "pendingTask", VBool true)].

Definition task_bodies : list value :=
  [task_pending; task_published; task_published_others_pending; VObj []].

(** Three status checks answered from a script: the task is published at
    the first answer already, while other tasks of the index are pending. *)
Definition task_script : list reply :=
  map (fun v => Response (json_response 200 v))
      [task_published_others_pending; task_pending; task_published].

Definition pending_script : list reply :=
  map (fun v => Response (json_response 200 v))
      [task_pending; task_pending; task_published].

Definition forwarding_client : client :=
  enableRateLimitForward (first_client three_hosts).1
    (VStr (lit "ADMIN")) (VStr (lit "192.168.0.1")) (VStr (lit "LIMITED")).

Definition add_book : options :=
  {| method := lit "POST"; url := lit "/1/indexes/books";
     body := VObj [(lit "title", VStr [233; 116; 233])] |}.

(** What the dispatcher passes on for a 200 response with the JSON body
    [v]. *)
Definition answered (v : value) : call_result :=
  {| cr_error := false; cr_res := Some (json_response 200 v); cr_body := v |}.

Definition book_one : value :=
  VObj [(lit "objectID", VStr (lit "a b/c")); (lit "title", VStr (lit "Walden"))].

Definition book_two : value :=
  VObj [(lit "objectID", VNum 42); (lit "title", VStr (lit "Emma"))].

(** ** Further methods of an index *)

Section MoreMethods.

Variable JSON_stringify : value -> jsstring.
Variable JSON_parse : jsstring -> option value.
Variable net : nat -> request -> reply.

(** [addObject(content, callback, objectID)]. *)
Definition addObject (indexObj : index) (content : value) (callback : bool)
    (objectID : value) (w : world) : world * completion (option answer) :=
  if isUndefined objectID then
    match encodeURIComponent (indexName indexObj) with
    | None => (w, Uncaught URIError)
    | Some name =>
        dispatch_and_forward JSON_stringify JSON_parse net (as_ indexObj)
          {| method := lit "POST";
             url := lit "/1/indexes/" ++ name;
             body := content |}
          callback w
    end
  else
    match encodeURIComponent (indexName indexObj), encodeURIComponent objectID with
    | Some name, Some id =>
        dispatch_and_forward JSON_stringify JSON_parse net (as_ indexObj)
          {| method := lit "PUT";
             url := lit "/1/indexes/" ++ name ++ lit "/" ++ id;
             body := content |}
          callback w
    | _, _ => (w, Uncaught URIError)
    end.

(** The loop of [addObjects]: one entry [{ action: 'addObject', body:
    objects[i] }] per object. *)
Definition add_requests (objects : list value) : list value :=
  map (fun object => VObj [(lit "action", VStr (lit "addObject")); (lit "body", object)])
      objects.

(** [addObjects(objects, callback)]. *)
Definition addObjects (indexObj : index) (objects : list value) (callback : bool)
    (w : world) : world * completion (option answer) :=
  let postObj := VObj [(lit "requests", VArr (add_requests objects))] in
  match encodeURIComponent (indexName indexObj) with
  | None => (w, Uncaught URIError)
  | Some name =>
      dispatch_and_forward JSON_stringify JSON_parse net (as_ indexObj)
        {| method := lit "POST";
           url := lit "/1/indexes/" ++ name ++ lit "/batch";
           body := postObj |}
        callback w
  end.

(** The url of [saveObject] and of [partialUpdateObject], which end in
    nothing and in ['/partial']: the name of the index is encoded first,
    then [object.objectID] is read, then encoded. *)
Definition object_url (indexObj : index) (object : value) (ending : jsstring)
    : exn + jsstring :=
  match encodeURIComponent (indexName indexObj) with
  | None => inl URIError
  | Some name =>
      match get object (lit "objectID") with
      | None => inl TypeError
      | Some objectID =>
          match encodeURIComponent objectID with
          | None => inl URIError
          | Some id => inr (lit "/1/indexes/" ++ name ++ lit "/" ++ id ++ ending)
          end
      end
  end.

(** [saveObject(object, callback)]. *)
Definition saveObject (indexObj : index) (object : value) (callback : bool)
    (w : world) : world * completion (option answer) :=
  match object_url indexObj object [] with
  | inl e => (w, Uncaught e)
  | inr path =>
      dispatch_and_forward JSON_stringify JSON_parse net (as_ indexObj)
        {| method := lit "PUT"; url := path; body := object |}
        callback w
  end.

(** [partialUpdateObject(partialObject, callback)]. *)
Definition partialUpdateObject (indexObj : index) (partialObject : value)
    (callback : bool) (w : world) : world * completion (option answer) :=
  match object_url indexObj partialObject (lit "/partial") with
  | inl e => (w, Uncaught e)
  | inr path =>
      dispatch_and_forward JSON_stringify JSON_parse net (as_ indexObj)
        {| method := lit "POST"; url := path; body := partialObject |}
        callback w
  end.

(** *** [_getSearchParams] *)

(** The own enumerable properties of a value in the order of [for (key in
    args)]: array indices first, in ascending order, then the other keys in
    the order of their creation.  In [VObj] the first binding of a key is
    the property and later ones are dead. *)
Definition is_digit (c : N) : bool := (48 <=? c) && (c <=? 57).

Definition digits_value (s : jsstring) : N :=
  fold_left (fun acc c => 10 * acc + (c - 48)) s 0.

(** A key is an array index when it is the decimal form of an integer
    below 2^32 - 1. *)
Definition array_index (key : jsstring) : option N :=
  match key with
  | [] => None
  | c :: rest =>
      if forallb is_digit key
         && (negb (c =? 48) || match rest with [] => true | _ :: _ => false end)
         && (digits_value key <? 4294967295)
      then Some (digits_value key)
      else None
  end.

Fixpoint live_bindings (seen : list jsstring) (props : list (jsstring * value))
    : list (jsstring * value) :=
  match props with
  | [] => []
  | (k, v) :: rest =>
      if bool_decide (k ∈ seen) then live_bindings seen rest
      else (k, v) :: live_bindings (k :: seen) rest
  end.

Fixpoint insert_by_index (i : N) (p : jsstring * value)
    (sorted : list (N * (jsstring * value))) : list (N * (jsstring * value)) :=
  match sorted with
  | [] => [(i, p)]
  | (j, q) :: rest =>
      if i <? j then (i, p) :: sorted else (j, q) :: insert_by_index i p rest
  end.

Definition indexed_first (props : list (jsstring * value)) : list (jsstring * value) :=
  let indexed :=
    fold_right (fun p acc => match array_index p.1 with
                             | Some i => insert_by_index i p acc
                             | None => acc
                             end) [] props in
  let named := filter (fun p => array_index p.1 = None) props in
  map snd indexed ++ named.

Definition index_key (i : nat) : jsstring :=
  lit (NilZero.string_of_int (Z.to_int (Z.of_nat i))).

Definition enumerate (args : value) : list (jsstring * value) :=
  match args with
  | VObj props => indexed_first (live_bindings [] props)
  | VArr xs => imap (fun i x => (index_key i, x)) xs
  | VStr s => imap (fun i c => (index_key i, VStr [c])) s
  | VUndefined | VNull | VBool _ | VNum _ => []
  end.

(** [args.hasOwnProperty] is a function unless [args] is an object with an
    own property of that name: no value of the model is a function. *)
Definition shadows_hasOwnProperty (args : value) : bool :=
  match args with
  | VObj props => bool_decide (lit "hasOwnProperty" ∈ map fst props)
  | _ => false
  end.

(** [encodeURIComponent(isArray(v) ? JSON.stringify(v) : v)]. *)
Definition encode_parameter (v : value) : option jsstring :=
  match v with
  | VArr _ => encodeURI_units (JSON_stringify v)
  | _ => encodeURIComponent v
  end.

(** The body of the loop, for the keys left. *)
Fixpoint append_parameters (entries : list (jsstring * value)) (params : jsstring)
    : option jsstring :=
  match entries with
  | [] => Some params
  | (key, v) :: rest =>
      let params := params ++ (match params with [] => lit "?" | _ :: _ => lit "&" end) in
      match encode_parameter v with
      | None => None
      | Some encoded => append_parameters rest (params ++ key ++ lit "=" ++ encoded)
      end
  end.

(** [_getSearchParams(args, params)]. *)
Definition _getSearchParams (args : value) (params : jsstring) : exn + jsstring :=
  if isUndefined args || is_null args then inr params
  else
    match enumerate args with
    | [] => inr params
    | entries =>
        if shadows_hasOwnProperty args then inl TypeError
        else match append_parameters entries params with
             | None => inl URIError
             | Some out => inr out
             end
    end.


End MoreMethods.

(** ** Further notions used in the statements *)

(** A reply after which [impl] goes on to the next host, if there is one:
    a transport error, or a response with status 0 or 503 that the 'end'
    handler decodes and the log line can print. *)
Definition fails_over (JSON_parse : jsstring -> option value) (r : reply) : Prop :=
  match r with
  | TransportError _ => True
  | Response res =>
      (statusCode res = 0 ∨ statusCode res = 503)%Z ∧
      ∃ a, on_end JSON_parse res = Resolved a ∧ can_log a
  end.

Definition slash : N := 47.
Definition ampersand : N := 38.

(** The text that [_getSearchParams] adds for one property, without the
    separator before it. *)
Definition parameter_text (key encoded : jsstring) : jsstring :=
  key ++ lit "=" ++ encoded.

(** The texts [key=value] for the properties [entries], when every value
    has an encoded form. *)
Definition parameter_pieces (JSON_stringify : value -> jsstring)
    (entries : list (jsstring * value)) : option (list jsstring) :=
  mapM (fun kv => option_map (parameter_text kv.1)
                    (encode_parameter JSON_stringify kv.2)) entries.

(** Pieces of text, each after an ampersand. *)
Definition joined (pieces : list jsstring) : jsstring :=
  concat (map (cons ampersand) pieces).

(** What follows [params] in a query string with these [pieces]: the
    first separator is a question mark when [params] is empty. *)
Definition query_tail (params : jsstring) (pieces : list jsstring) : jsstring :=
  match params, pieces with
  | _, [] => []
  | [], piece :: pieces => lit "?" ++ piece ++ joined pieces
  | _ :: _, _ => joined pieces
  end.

(** The line [console.log] writes for the error [e] of the transport. *)
Definition transport_log_line (e : value) : jsstring := lit "Error: " ++ ToString e.

(** The network on which every request ends in the transport error [e]. *)
Definition unreachable (e : value) : nat -> request -> reply :=
  fun _ _ => TransportError e.


(** The lines that [impl] writes to the console for one attempt. *)
Definition log_lines (a : attempt_result) : list jsstring :=
  if ar_error a && negb (isUndefined (ar_body a)) then
    match get (ar_body a) (lit "message") with
    | Some message => [lit "Error: " ++ ToString message]
    | None => []
    end
  else [].

Definition lines_of (c : completion attempt_result) : list jsstring :=
  match c with
  | Resolved a => log_lines a
  | Uncaught _ | Unfinished => []
  end.

(** A response on which the handlers of an attempt throw [e]: it has no
    Content-Type header; or it declares JSON and its text is not JSON; or
    it declares JSON, its text is [null] and its status is neither 200
    nor 201, so that the log line reads [null.message]. *)
Definition throws (JSON_parse : jsstring -> option value) (res : response)
    (e : exn) : Prop :=
  match headers res !! lit "content-type" with
  | None => e = TypeError
  | Some content_type =>
      (indexOf (toLowerCase content_type) (lit "application/json") >=? 0)%Z = true ∧
      match JSON_parse (chunks res) with
      | None => e = SyntaxError
      | Some parsed =>
          parsed = VNull ∧ (statusCode res ∉ [200; 201]%Z) ∧ e = TypeError
      end
  end.

(** A script of replies for three hosts: the first cannot be reached, the
    second is overloaded, the third answers. *)
Definition failover_script : list reply :=
  [TransportError (VStr (lit "ETIMEDOUT"));
   Response (html_response 503 (lit "busy"));
   Response (json_response 200 (VObj []))].


(** The first host cannot be reached and the second answers 500 with the
    JSON text [null]. *)
Definition null_script : list reply :=
  [TransportError (VStr (lit "ETIMEDOUT"));
   Response (json_response 500 VNull)].

(** * Properties *)

(** ** Strings and values *)

Example encodeURIComponent_space :
  encodeURIComponent (VStr (lit "a b/c")) = Some (lit "a%20b%2Fc").
Proof. reflexivity. Qed.

Example encodeURIComponent_e_acute :
  encodeURIComponent (VStr [233]) = Some (lit "%C3%A9").
Proof. reflexivity. Qed.

Example encodeURIComponent_number :
  encodeURIComponent (VNum 42) = Some (lit "42").
Proof. reflexivity. Qed.

Example encodeURIComponent_lone_surrogate :
  encodeURIComponent (VStr [0xD800; 97]) = None.
Proof. reflexivity. Qed.

Example utf8_encode_euro : utf8_encode [0x20AC] = [0xE2; 0x82; 0xAC].
Proof. reflexivity. Qed.

Example utf8_encode_pair : utf8_encode [0xD83D; 0xDE00] = [0xF0; 0x9F; 0x98; 0x80].
Proof. reflexivity. Qed.

Example split_host_port : split 58 (lit "localhost:8080") = [lit "localhost"; lit "8080"].
Proof. reflexivity. Qed.

Example indexOf_json :
  indexOf (toLowerCase (lit "Application/JSON; charset=utf-8")) (lit "application/json") = 0%Z.
Proof. reflexivity. Qed.

Lemma starts_with_unit c s :
  starts_with [c] s = match s with d :: _ => c =? d | [] => false end.
Proof. destruct s as [|d s]; [done|]. simpl. by rewrite andb_true_r. Qed.

Lemma indexOf_from_unit_absent c s : ∀ pos,
  c ∉ s → indexOf_from pos s [c] = (-1)%Z.
Proof.
  induction s as [|d s IH]; intros pos Hc; [done|].
  cbn [indexOf_from]. rewrite starts_with_unit.
  apply not_elem_of_cons in Hc as [Hcd Hs].
  apply N.eqb_neq in Hcd. rewrite Hcd. by apply IH.
Qed.

Lemma indexOf_from_unit_present c s : ∀ pos,
  c ∈ s → (0 ≤ pos)%Z → (pos ≤ indexOf_from pos s [c])%Z.
Proof.
  induction s as [|d s IH]; intros pos Hc Hpos; [by apply elem_of_nil in Hc|].
  cbn [indexOf_from]. rewrite starts_with_unit.
  destruct (c =? d) eqn:Hcd; [lia|].
  apply N.eqb_neq in Hcd. apply elem_of_cons in Hc as [->|Hs]; [done|].
  specialize (IH (pos + 1)%Z Hs). lia.
Qed.

(** [s.indexOf(c) !== -1] says that [c] occurs in [s]. *)
Lemma indexOf_unit c s :
  negb (indexOf s [c] =? -1)%Z = bool_decide (c ∈ s).
Proof.
  unfold indexOf. case_bool_decide as Hc.
  - pose proof (indexOf_from_unit_present c s 0%Z Hc). 
    apply negb_true_iff, Z.eqb_neq. lia.
  - by rewrite indexOf_from_unit_absent.
Qed.

Lemma split_nonempty sep s : split sep s ≠ [].
Proof.
  destruct s as [|c s]; [done|]. simpl.
  destruct (c =? sep); [done|]. by destruct (split sep s).
Qed.

(** Up to its first separator a string is the first piece, and the rest
    is split on its own. *)
Lemma split_app_sep sep h t :
  sep ∉ h → split sep (h ++ sep :: t) = h :: split sep t.
Proof.
  induction h as [|c h IH]; intros Hsep; simpl.
  - by rewrite N.eqb_refl.
  - apply not_elem_of_cons in Hsep as [Hc Hh].
    assert ((c =? sep) = false) as -> by (apply N.eqb_neq; congruence).
    by rewrite IH.
Qed.

Lemma split_absent sep s : sep ∉ s → split sep s = [s].
Proof.
  induction s as [|c s IH]; intros Hsep; [done|]. simpl.
  apply not_elem_of_cons in Hsep as [Hc Hs].
  assert ((c =? sep) = false) as -> by (apply N.eqb_neq; congruence).
  by rewrite IH.
Qed.

(** The first piece of a string ends at its first separator, or at its end. *)
Lemma split_first sep p rest :
  sep ∉ p → rest = [] ∨ (∃ rest', rest = sep :: rest') →
  split sep (p ++ rest) !! 0%nat = Some p.
Proof.
  intros Hp [->|[rest' ->]].
  - by rewrite app_nil_r, split_absent.
  - by rewrite split_app_sep.
Qed.

(** A string in which [sep] occurs is a piece without [sep], then [sep],
    then a second piece without [sep], and then either the end or a
    further [sep]. *)
Lemma split_pieces sep (s : jsstring) :
  sep ∈ s →
  ∃ h p rest,
    s = h ++ sep :: p ++ rest ∧ (sep ∉ h) ∧ (sep ∉ p) ∧
    (rest = [] ∨ ∃ rest', rest = sep :: rest').
Proof.
  intros Hin. apply list_elem_of_split_l in Hin as (h & t & -> & Hh).
  exists h. destruct (decide (sep ∈ t)) as [Ht|Ht].
  - apply list_elem_of_split_l in Ht as (p & rest' & -> & Hp).
    exists p, (sep :: rest'). repeat split; eauto.
  - exists t, []. rewrite app_nil_r. repeat split; eauto.
Qed.

Section Port.

Variable this : client.
Variable opts : options.
Variable body : option jsstring.

(** A host name without a colon is kept, with port 443. *)
Lemma port_default hostname :
  colon ∉ hostname →
  ro_hostname (_computeRequestOptions this opts hostname body) = VStr hostname ∧
  ro_port (_computeRequestOptions this opts hostname body) = VNum 443.
Proof.
  intros Hc. unfold _computeRequestOptions. cbn [ro_hostname ro_port].
  rewrite indexOf_unit. by rewrite bool_decide_eq_false_2.
Qed.

(** A host name with a colon: the text before the first colon is the
    host, and the text from there to the next colon, or to the end, is
    the port. *)
Lemma port_override h p rest :
  colon ∉ h → colon ∉ p → rest = [] ∨ (∃ rest', rest = colon :: rest') →
  let r := _computeRequestOptions this opts (h ++ colon :: p ++ rest) body in
  ro_hostname r = VStr h ∧ ro_port r = VStr p.
Proof.
  intros Hh Hp Hrest. unfold _computeRequestOptions. cbn [ro_hostname ro_port].
  rewrite indexOf_unit.
  rewrite bool_decide_eq_true_2 by (apply elem_of_app; right; left).
  rewrite split_app_sep by done. cbn [fst snd]. unfold element. simpl.
  by rewrite split_first.
Qed.

End Port.

(** ** The dispatcher *)

Section DispatcherFacts.

Variable JSON_stringify : value -> jsstring.
Variable JSON_parse : jsstring -> option value.
Variable net : nat -> request -> reply.
Variable this : client.
Variable opts : options.

Local Abbreviation built := (request_for JSON_stringify this opts).
Local Abbreviation run := (impl JSON_stringify JSON_parse net).
Local Abbreviation dispatch := (_jsonRequest JSON_stringify JSON_parse net).
Local Abbreviation replied := (on_reply JSON_parse).

Lemma log_failure_frame r w w' :
  log_failure r w = Some w' →
  hosts w' = hosts w ∧ sent w' = sent w ∧ calls w' = calls w.
Proof.
  unfold log_failure.
  destruct (ar_error r && negb (isUndefined (ar_body r))).
  - destruct (get (ar_body r) (lit "message")); [|discriminate].
    intros [= <-]. done.
  - intros [= <-]. done.
Qed.

(** Whatever the network does, a run of [impl] leaves the pool and the
    journal alone, and the requests it issues are those of the hosts at
    [idx], [idx + 1], ... in this order, at most one per host and never
    more than [fuel]. *)
Lemma impl_trace fuel : ∀ position w w' c,
  run fuel this opts position w = (w', c) →
  hosts w' = hosts w ∧ calls w' = calls w ∧
  ∃ k : nat,
    (k ≤ fuel)%nat ∧
    (k ≤ length (hosts w) - index_of_position position)%nat ∧
    sent w' = sent w ++
      map built (take k (drop (index_of_position position) (hosts w))).
Proof.
  induction fuel as [|fuel IH]; intros position w w' c; simpl;
    set (idx := index_of_position position).
  - destruct (length (hosts w) <=? idx)%nat; intros [= <- <-];
      (split; [done|split; [done|]]); exists 0%nat;
      rewrite take_0, app_nil_r; repeat split; lia.
  - destruct (length (hosts w) <=? idx)%nat eqn:Hlen.
    { intros [= <- <-]. split; [done|split; [done|]]. exists 0%nat.
      rewrite take_0, app_nil_r; repeat split; lia. }
    apply Nat.leb_gt in Hlen.
    assert (Hdrop : drop idx (hosts w) = nth idx (hosts w) [] :: drop (S idx) (hosts w)).
    { destruct (lookup_lt_is_Some_2 _ _ Hlen) as [x Hx].
      rewrite (nth_lookup_Some _ _ [] x Hx). by apply drop_S. }
    unfold _jsonRequestByHost.
    set (req := built (nth idx (hosts w) [])).
    destruct (replied (net (length (sent w)) req)) as [r|e|].
    + destruct (log_failure r (record_request req w)) as [w2|] eqn:Hlog.
      * apply log_failure_frame in Hlog as (Hh & Hs & Hc). simpl in Hh, Hs, Hc.
        destruct (ar_retry r && ar_error r && (idx + 1 <? length (hosts w2))%nat).
        -- intros Himpl. apply IH in Himpl as (Hh' & Hc' & k & Hk1 & Hk2 & Hsent).
           simpl in Hk2, Hsent.
           split; [congruence|]. split; [congruence|].
           exists (S k). split; [lia|]. split; [rewrite Hh in Hk2; lia|].
           rewrite Hsent, Hs, Hh, Hdrop. simpl.
           rewrite <- app_assoc. simpl. by rewrite Nat.add_1_r.
        -- intros [= <- <-]. split; [done|]. split; [done|].
           exists 1%nat. split; [lia|]. split; [lia|].
           by rewrite Hs, Hdrop.
      * intros [= <- <-]. split; [done|]. split; [done|].
        exists 1%nat. split; [lia|]. split; [lia|].
        by rewrite Hdrop.
    + intros [= <- <-]. split; [done|]. split; [done|].
      exists 1%nat. split; [lia|]. split; [lia|].
      by rewrite Hdrop.
    + intros [= <- <-]. split; [done|]. split; [done|].
      exists 1%nat. split; [lia|]. split; [lia|].
      by rewrite Hdrop.
Qed.


Lemma log_failure_can_log r w :
  can_log r → ∃ w', log_failure r w = Some w'.
Proof.
  unfold can_log, log_failure. intros Hlog.
  destruct (ar_error r && negb (isUndefined (ar_body r))); [|by eexists].
  destruct (Hlog eq_refl) as [m ->]. by eexists.
Qed.

(** An attempt whose answer is not both retryable and an error ends the
    call at once, whatever hosts are left. *)
Lemma impl_stops fuel position w r :
  let idx := index_of_position position in
  (idx < length (hosts w))%nat →
  replied (net (length (sent w)) (built (nth idx (hosts w) []))) = Resolved r →
  can_log r →
  ar_retry r && ar_error r = false →
  ∃ w', run (S fuel) this opts position w = (w', Resolved (result_of r)) ∧
        hosts w' = hosts w ∧
        sent w' = sent w ++ [built (nth idx (hosts w) [])].
Proof.
  intros idx Hlen Hreply Hlog Hstop. simpl. fold idx.
  apply Nat.leb_gt in Hlen as Hlen'. rewrite Hlen'.
  unfold _jsonRequestByHost. rewrite Hreply.
  destruct (log_failure_can_log r (record_request (built (nth idx (hosts w) [])) w) Hlog)
    as [w2 Hw2].
  rewrite Hw2, Hstop. simpl.
  apply log_failure_frame in Hw2 as (Hh & Hs & _). by exists w2.
Qed.

(** When every host of the pool answers with a retryable failure, [impl]
    tries each host from [idx] to the last, in order, and then reports
    the failure of the last one. *)
Lemma impl_exhausts fuel : ∀ position w,
  let idx := index_of_position position in
  (idx < length (hosts w))%nat →
  (length (hosts w) - idx ≤ fuel)%nat →
  (∀ n h, h ∈ hosts w →
     ∃ r, replied (net n (built h)) = Resolved r ∧
          ar_retry r = true ∧ ar_error r = true ∧ can_log r) →
  ∃ w' r,
    run fuel this opts position w = (w', Resolved (result_of r)) ∧
    ar_error r = true ∧
    hosts w' = hosts w ∧
    sent w' = sent w ++ map built (drop idx (hosts w)) ∧
    replied (net (length (sent w') - 1)
                  (built (nth (length (hosts w) - 1) (hosts w) []))) = Resolved r.
Proof.
  induction fuel as [|fuel IH]; intros position w idx Hlen Hfuel Hnet; [lia|].
  simpl. fold idx.
  apply Nat.leb_gt in Hlen as Hlen'. rewrite Hlen'.
  destruct (lookup_lt_is_Some_2 _ _ Hlen) as [h Hh].
  rewrite (nth_lookup_Some _ _ [] h Hh).
  pose proof (drop_S _ _ _ Hh) as Hdrop.
  unfold _jsonRequestByHost.
  destruct (Hnet (length (sent w)) h) as (r & Hreply & Hretry & Herror & Hlog).
  { eapply list_elem_of_lookup_2; eauto. }
  rewrite Hreply.
  destruct (log_failure_can_log r (record_request (built h) w) Hlog) as [w2 Hw2].
  rewrite Hw2, Hretry, Herror. simpl.
  apply log_failure_frame in Hw2 as (Hh2 & Hs2 & _). simpl in Hh2, Hs2.
  destruct (idx + 1 <? length (hosts w2))%nat eqn:Hmore.
  - apply Nat.ltb_lt in Hmore.
    destruct (IH (Some (idx + 1)%nat) w2) as (w' & r' & Himpl & Herr' & Hh' & Hs' & Hlast).
    + simpl. lia.
    + simpl. rewrite Hh2. lia.
    + intros n h' Hin. apply Hnet. by rewrite <- Hh2.
    + exists w', r'. simpl in Hs'. rewrite Himpl. split; [done|]. split; [done|].
      split; [congruence|]. split.
      * rewrite Hs', Hs2, Hh2, Hdrop, Nat.add_1_r. simpl. by rewrite <- app_assoc.
      * by rewrite <- Hh2.
  - apply Nat.ltb_ge in Hmore. rewrite Hh2 in Hmore.
    assert (Hidx : idx = (length (hosts w) - 1)%nat) by lia.
    exists w2, r. split; [done|].
    split; [done|]. split; [done|]. split.
    + rewrite Hs2, Hdrop. by rewrite drop_ge by lia.
    + rewrite Hs2, length_app. simpl. rewrite Nat.add_sub.
      rewrite <- Hidx. by rewrite (nth_lookup_Some _ _ [] h Hh).
Qed.

(** *** One logical call *)

(** A logical call leaves the pool alone, adds itself to the journal,
    and issues the requests of a prefix of the pool, in pool order: at
    most one attempt per host, hence never more than the pool has hosts. *)
Lemma jsonRequest_trace w w' c :
  dispatch this opts w = (w', c) →
  hosts w' = hosts w ∧ calls w' = calls w ++ [opts] ∧
  ∃ k : nat, (k ≤ length (hosts w))%nat ∧
    sent w' = sent w ++ map built (take k (hosts w)).
Proof.
  unfold _jsonRequest. intros Himpl.
  apply impl_trace in Himpl as (Hh & Hc & k & Hk1 & Hk2 & Hs). simpl in *.
  split; [done|]. split; [done|]. exists k. split; [lia|]. by rewrite Hs.
Qed.


End DispatcherFacts.

Section Retry.

Variable JSON_stringify : value -> jsstring.
Variable JSON_parse : jsstring -> option value.
Variable net : nat -> request -> reply.
Variable this : client.
Variable opts : options.

Local Abbreviation built := (request_for JSON_stringify this opts).
Local Abbreviation dispatch := (_jsonRequest JSON_stringify JSON_parse net).
Local Abbreviation decoded := (on_end JSON_parse).

(** What the 'end' handler passes on is fixed by the status code. *)
Lemma on_end_resolved res r :
  decoded res = Resolved r →
  ar_retry r = ((statusCode res =? 0)%Z || (statusCode res =? 503)%Z) ∧
  ar_error r = negb ((statusCode res =? 200)%Z || (statusCode res =? 201)%Z) ∧
  ar_res r = Some res.
Proof.
  unfold on_end.
  destruct (headers res !! lit "content-type"); [|done].
  destruct (indexOf _ _ >=? 0)%Z.
  - destruct (JSON_parse (chunks res)); [|done]. by intros [= <-].
  - by intros [= <-].
Qed.

(** A pool whose hosts all answer 503, each with a response that the
    'end' handler decodes and the log line can print: every host is
    tried once, in pool order, and the call fails with the answer of the
    last host. *)
Lemma dispatch_503_every_host w :
  hosts w ≠ [] →
  (∀ n h, h ∈ hosts w →
     ∃ res r, net n (built h) = Response res ∧ statusCode res = 503%Z ∧
              decoded res = Resolved r ∧ can_log r) →
  ∃ w' r,
    dispatch this opts w = (w', Resolved r) ∧
    cr_error r = true ∧
    sent w' = sent w ++ map built (hosts w) ∧
    ∃ res, cr_res r = Some res ∧ statusCode res = 503%Z ∧
           net (length (sent w') - 1)
               (built (nth (length (hosts w) - 1) (hosts w) [])) = Response res.
Proof.
  intros Hne Hnet. unfold _jsonRequest.
  destruct (impl_exhausts JSON_stringify JSON_parse net this opts
              (length (hosts w)) None (record_call opts w))
    as (w' & r & Himpl & Herr & Hh & Hs & Hlast); simpl.
  - destruct (hosts w); [done|simpl; lia].
  - lia.
  - intros n h Hin. destruct (Hnet n h Hin) as (res & r & Hres & Hst & Hend & Hlog).
    exists r. rewrite Hres. simpl. split; [done|].
    apply on_end_resolved in Hend as (Hretry & Herror & _).
    rewrite Hretry, Herror, Hst. done.
  - simpl in *. exists w', (result_of r). split; [done|]. split; [done|].
    split; [done|].
    destruct (Hnet (length (sent w') - 1)%nat (nth (length (hosts w) - 1) (hosts w) []))
      as (res & r' & Hres & Hst & Hend & _).
    { apply list_elem_of_In, nth_In. destruct (hosts w); [done|simpl; lia]. }
    exists res. rewrite Hres in Hlast. simpl in Hlast.
    apply on_end_resolved in Hlast as (_ & _ & Hr). done.
Qed.

(** A first answer with a status other than 200, 201, 0 and 503, which
    the 'end' handler decodes and the log line can print, ends the call
    as a failure after that one attempt. *)
Lemma dispatch_stops_on_status w h res r :
  hosts w !! 0%nat = Some h →
  net (length (sent w)) (built h) = Response res →
  statusCode res ∉ [200; 201; 0; 503]%Z →
  decoded res = Resolved r →
  can_log r →
  ∃ w', dispatch this opts w =
          (w', Resolved {| cr_error := true; cr_res := Some res; cr_body := ar_body r |}) ∧
        sent w' = sent w ++ [built h].
Proof.
  intros Hh Hres Hst Hend Hlog. unfold _jsonRequest.
  pose proof (on_end_resolved _ _ Hend) as (Hretry & Herror & Hr).
  assert (Hcodes : statusCode res ≠ 200%Z ∧ statusCode res ≠ 201%Z ∧
                   statusCode res ≠ 0%Z ∧ statusCode res ≠ 503%Z).
  { repeat split; intros Heq; apply Hst; rewrite Heq; set_solver. }
  destruct Hcodes as (H200 & H201 & H0 & H503).
  apply Z.eqb_neq in H200, H201, H0, H503.
  rewrite H0, H503 in Hretry. rewrite H200, H201 in Herror. simpl in Hretry, Herror.
  assert (Hnth : nth 0 (hosts w) [] = h) by by apply nth_lookup_Some.
  assert (Hfuel : ∃ fuel, length (hosts w) = S fuel).
  { apply lookup_lt_Some in Hh. destruct (hosts w); simpl in *; [lia|eauto]. }
  destruct Hfuel as [fuel Hfuel]. rewrite Hfuel.
  destruct (impl_stops JSON_stringify JSON_parse net this opts
              fuel None (record_call opts w) r) as (w' & Himpl & _ & Hs).
  - simpl. lia.
  - simpl. by rewrite Hnth, Hres.
  - done.
  - by rewrite Hretry.
  - exists w'. rewrite Himpl. simpl in Hs. rewrite Hs, Hnth. split; [|done].
    unfold result_of. by rewrite Herror, Hr.
Qed.

(** A first answer without a Content-Type header: the 'end' handler
    throws on [res.headers['content-type'].toLowerCase()], whatever the
    status is.  The request to the first host is the only one, and the
    callback is not invoked. *)
Lemma dispatch_without_content_type w h res :
  hosts w !! 0%nat = Some h →
  net (length (sent w)) (built h) = Response res →
  headers res !! lit "content-type" = None →
  dispatch this opts w =
    (record_request (built h) (record_call opts w), Uncaught TypeError).
Proof.
  intros Hh Hres Hnone. unfold _jsonRequest.
  assert (Hnth : nth 0 (hosts w) [] = h) by by apply nth_lookup_Some.
  assert (Hfuel : ∃ fuel, length (hosts w) = S fuel).
  { apply lookup_lt_Some in Hh. destruct (hosts w); simpl in *; [lia|eauto]. }
  destruct Hfuel as [fuel Hfuel]. rewrite Hfuel. simpl. rewrite Hfuel. simpl.
  unfold _jsonRequestByHost. simpl. rewrite Hnth, Hres. simpl.
  unfold on_end. by rewrite Hnone.
Qed.

(** C4.  A logical call on an empty pool invokes its callback at once with
    [(true, null, { message: 'Cannot contact server' })], and issues no
    request. *)
Theorem dispatch_empty_pool w :
  hosts w = [] →
  dispatch this opts w =
    (record_call opts w,
     Resolved {| cr_error := true; cr_res := None;
                 cr_body := VObj [(lit "message", VStr (lit "Cannot contact server"))] |}) ∧
  sent (dispatch this opts w).1 = sent w.
Proof.
  intros Hempty. unfold _jsonRequest. rewrite Hempty. simpl. by rewrite Hempty.
Qed.

End Retry.

(** ** The request builder *)

Section Builder.

Variable this : client.
Variable opts : options.
Variable hostname : jsstring.
Variable body : option jsstring.

Local Abbreviation header := (fun (c : client) (name : string) =>
  ro_headers (_computeRequestOptions c opts hostname body) !! lit name).

(** The headers of a client that forwards: the admin key is the API key,
    and the two forwarding headers are set. *)
Lemma headers_forwarding :
  forwardAdminAPIKey this ≠ VNull →
  header this "X-Algolia-API-Key" = Some (forwardAdminAPIKey this) ∧
  header this "X-Forwarded-API-Key" = Some (forwardLimitAPIKey this) ∧
  header this "X-Forwarded-For" = Some (forwardEndUserIP this).
Proof.
  intros Hadmin. unfold _computeRequestOptions. cbn [ro_headers].
  assert (is_null (forwardAdminAPIKey this) = false) as ->
    by by destruct (forwardAdminAPIKey this).
  cbn [negb]. destruct body; repeat split; vm_compute; reflexivity.
Qed.

(** The headers of a client that does not forward. *)
Lemma headers_plain :
  forwardAdminAPIKey this = VNull →
  header this "X-Algolia-API-Key" = Some (apiKey this) ∧
  header this "X-Forwarded-API-Key" = None ∧
  header this "X-Forwarded-For" = None.
Proof.
  intros Hadmin. unfold _computeRequestOptions. cbn [ro_headers].
  rewrite Hadmin. cbn [negb is_null].
  destruct body; repeat split; vm_compute; reflexivity.
Qed.

End Builder.

(** ** Rate-limit forwarding and the request descriptor *)

Section Requests.

Variable JSON_stringify : value -> jsstring.
Variable this : client.
Variable opts : options.

Local Abbreviation built := (request_for JSON_stringify).

Lemma header_of_request c hostname name :
  header_of (built c opts hostname) name =
  ro_headers (_computeRequestOptions c opts hostname
                (if negb (isUndefined (body opts))
                 then Some (JSON_stringify (body opts)) else None)) !! lit name.
Proof. done. Qed.

(** C7.  While forwarding is enabled, that is after
    [enableRateLimitForward] with an admin key other than [null], every
    request carries the admin key as X-Algolia-API-Key, the rate-limited
    key as X-Forwarded-API-Key and the end-user IP as X-Forwarded-For.
    After [disableRateLimitForward] every request carries the plain API
    key and none of the two forwarding headers. *)
Theorem forwarding_headers hostname adminAPIKey endUserIP rateLimitAPIKey :
  adminAPIKey ≠ VNull →
  let on := built (enableRateLimitForward this adminAPIKey endUserIP rateLimitAPIKey)
                  opts hostname in
  let off := built (disableRateLimitForward this) opts hostname in
  (header_of on "X-Algolia-API-Key" = Some adminAPIKey ∧
   header_of on "X-Forwarded-API-Key" = Some rateLimitAPIKey ∧
   header_of on "X-Forwarded-For" = Some endUserIP) ∧
  (header_of off "X-Algolia-API-Key" = Some (apiKey this) ∧
   header_of off "X-Forwarded-API-Key" = None ∧
   header_of off "X-Forwarded-For" = None).
Proof.
  intros Hadmin on off. unfold on, off. rewrite !header_of_request. split.
  - by apply (headers_forwarding
                (enableRateLimitForward this adminAPIKey endUserIP rateLimitAPIKey)).
  - by apply (headers_plain (disableRateLimitForward this)).
Qed.

(** C9.  [enableRateLimitForward] with [null] as admin key builds the
    very requests that [disableRateLimitForward] builds, with the plain
    API key and no forwarding header, whatever the two other arguments
    are; and the forwarding headers are set exactly when the admin key
    stored is not [null]. *)
Theorem forwarding_needs_admin_key hostname endUserIP rateLimitAPIKey :
  let null_key := built (enableRateLimitForward this VNull endUserIP rateLimitAPIKey)
                        opts hostname in
  null_key = built (disableRateLimitForward this) opts hostname ∧
  header_of null_key "X-Algolia-API-Key" = Some (apiKey this) ∧
  header_of null_key "X-Forwarded-API-Key" = None ∧
  header_of null_key "X-Forwarded-For" = None ∧
  (is_Some (header_of (built this opts hostname) "X-Forwarded-For")
     ↔ forwardAdminAPIKey this ≠ VNull) ∧
  (is_Some (header_of (built this opts hostname) "X-Forwarded-API-Key")
     ↔ forwardAdminAPIKey this ≠ VNull).
Proof.
  intros null_key. split; [done|].
  unfold null_key. rewrite !header_of_request.
  destruct (headers_plain (enableRateLimitForward this VNull endUserIP rateLimitAPIKey)
              opts hostname
              (if negb (isUndefined (body opts))
               then Some (JSON_stringify (body opts)) else None) eq_refl)
    as (Hkey & Hfk & Hff).
  split; [done|]. split; [done|]. split; [done|].
  destruct (forwardAdminAPIKey this) eqn:Hadmin.
  all: try (destruct (headers_forwarding this opts hostname
              (if negb (isUndefined (body opts))
               then Some (JSON_stringify (body opts)) else None))
            as (_ & Hk & Hf); [by rewrite Hadmin|];
            rewrite Hk, Hf; split; split; intros _; by eauto).
  destruct (headers_plain this opts hostname
              (if negb (isUndefined (body opts))
               then Some (JSON_stringify (body opts)) else None) Hadmin)
    as (_ & Hk & Hf).
  rewrite Hk, Hf. split; split; intros H; try done; by destruct H.
Qed.

(** C8, as the code has it.  The request built for [opts] and a host:
    - with a body, Content-Type is application/json, Content-Length is
      the number of bytes of the UTF-8 encoding of the serialized body,
      and these bytes are what is written;
    - without a body, Content-Length is 0 and nothing is written;
    - every host string with a colon is cut at its first colon: the text
      before it is the host name, and the text between it and the next
      colon, or the end of the string, replaces the port 443; with one
      colon only this is all that follows the colon;
    - without a colon the port is 443. *)
Theorem request_descriptor :
  (body opts ≠ VUndefined → ∀ hostname,
     let r := built this opts hostname in
     let text := JSON_stringify (body opts) in
     header_of r "Content-Type" = Some (VStr (lit "application/json")) ∧
     header_of r "Content-Length" = Some (VNum (Z.of_nat (length (utf8_encode text)))) ∧
     req_written r = Some (utf8_encode text)) ∧
  (body opts = VUndefined → ∀ hostname,
     let r := built this opts hostname in
     header_of r "Content-Length" = Some (VNum 0) ∧
     header_of r "Content-Type" = None ∧
     req_written r = None) ∧
  (∀ hostname,
     colon ∈ hostname →
     ∃ h p rest,
       hostname = h ++ colon :: p ++ rest ∧ (colon ∉ h) ∧ (colon ∉ p) ∧
       (rest = [] ∨ ∃ rest', rest = colon :: rest') ∧
       ro_hostname (req_options (built this opts hostname)) = VStr h ∧
       ro_port (req_options (built this opts hostname)) = VStr p) ∧
  (∀ h p,
     colon ∉ h → colon ∉ p →
     ro_hostname (req_options (built this opts (h ++ colon :: p))) = VStr h ∧
     ro_port (req_options (built this opts (h ++ colon :: p))) = VStr p) ∧
  (∀ hostname,
     colon ∉ hostname →
     ro_hostname (req_options (built this opts hostname)) = VStr hostname ∧
     ro_port (req_options (built this opts hostname)) = VNum 443).
Proof.
  split; [|split; [|split; [|split]]].
  - intros Hbody hostname r text. unfold r, header_of, request_for.
    assert (isUndefined (body opts) = false) as -> by by destruct (body opts).
    cbn [negb req_options req_written option_map].
    unfold _computeRequestOptions. cbn [ro_headers]. fold text.
    destruct (is_null (forwardAdminAPIKey this));
      cbn [negb]; repeat split; vm_compute; reflexivity.
  - intros Hbody hostname r. unfold r, header_of, request_for. rewrite Hbody.
    cbn [negb isUndefined req_options req_written option_map].
    unfold _computeRequestOptions. cbn [ro_headers].
    destruct (is_null (forwardAdminAPIKey this));
      cbn [negb]; repeat split; vm_compute; reflexivity.
  - intros hostname Hin.
    destruct (split_pieces colon hostname Hin) as (h & p & rest & -> & Hh & Hp & Hrest).
    exists h, p, rest. repeat (split; [done|]). by apply port_override.
  - intros h p Hh Hp.
    pose proof (port_override this opts
                  (if negb (isUndefined (body opts))
                   then Some (JSON_stringify (body opts)) else None)
                  h p [] Hh Hp (or_introl eq_refl)) as Hport.
    by rewrite app_nil_r in Hport.
  - intros hostname Hc. by apply port_default.
Qed.

End Requests.

(** ** The host pool *)

Lemma add_hosts_permutation random : ∀ hostsArray i pool,
  add_hosts random i hostsArray pool ≡ₚ pool ++ hostsArray.
Proof.
  induction hostsArray as [|h rest IH]; intros i pool; simpl.
  - by rewrite app_nil_r.
  - rewrite IH, <- app_assoc. simpl.
    destruct (random i); [|done]. by rewrite <- Permutation_rev.
Qed.

(** The constructor adds the hosts it is given to the hosts that the
    prototype holds already, and reorders them; it adds nothing else,
    drops nothing and repeats nothing. *)
Lemma AlgoliaSearch_pool applicationID apiKey httpsAgent given random w :
  hosts (AlgoliaSearch applicationID apiKey httpsAgent (Some given) random w).2
    ≡ₚ hosts w ++ given.
Proof.
  unfold AlgoliaSearch. cbn [snd set_hosts hosts].
  destruct (random (length given)).
  - by rewrite <- Permutation_rev, add_hosts_permutation.
  - apply add_hosts_permutation.
Qed.

(** The first client of a process gets exactly the hosts it is given. *)
Lemma AlgoliaSearch_first_pool applicationID apiKey httpsAgent given random :
  hosts (AlgoliaSearch applicationID apiKey httpsAgent (Some given) random initial_world).2
    ≡ₚ given.
Proof. by rewrite AlgoliaSearch_pool. Qed.

(** Without a list of hosts the three default names are used. *)
Lemma AlgoliaSearch_default_pool applicationID apiKey httpsAgent random :
  hosts (AlgoliaSearch applicationID apiKey httpsAgent None random initial_world).2
    ≡ₚ default_hosts applicationID.
Proof.
  unfold AlgoliaSearch. cbn [snd set_hosts hosts].
  destruct (random _).
  - by rewrite <- Permutation_rev, add_hosts_permutation.
  - apply add_hosts_permutation.
Qed.

(** C2.  A second client constructed in the same process with three hosts
    of its own: the pool it dispatches on holds six hosts, the three of the
    first client among them, whatever the coins of the two constructions
    are.  Both constructors push onto the one array of the prototype. *)
Theorem second_client_shares_pool (random1 random2 : nat → bool) :
  let w1 := (AlgoliaSearch (VStr (lit "APP1")) (VStr (lit "KEY1")) VUndefined
               (Some three_hosts) random1 initial_world).2 in
  let w2 := (AlgoliaSearch (VStr (lit "APP2")) (VStr (lit "KEY2")) VUndefined
               (Some other_hosts) random2 w1).2 in
  hosts w2 ≡ₚ three_hosts ++ other_hosts ∧
  length (hosts w2) = 6%nat ∧
  lit "a.example.com" ∈ hosts w2 ∧
  lit "a.example.com" ∉ other_hosts.
Proof.
  intros w1 w2.
  assert (Hpool : hosts w2 ≡ₚ three_hosts ++ other_hosts).
  { unfold w2. rewrite AlgoliaSearch_pool. unfold w1.
    by rewrite AlgoliaSearch_first_pool. }
  split; [done|]. split; [by rewrite Hpool|]. split.
  - rewrite Hpool. by left.
  - vm_compute. intros Hin.
    repeat (apply elem_of_cons in Hin as [Hin|Hin]; [discriminate|]).
    by apply elem_of_nil in Hin.
Qed.

(** What follows for the second client: its first request goes to a host
    of the first client, with the application id and the key of the
    second. *)
Example second_client_contacts_first_hosts :
  let w1 := (AlgoliaSearch (VStr (lit "APP1")) (VStr (lit "KEY1")) VUndefined
               (Some three_hosts) no_reversal initial_world).2 in
  let second := AlgoliaSearch (VStr (lit "APP2")) (VStr (lit "KEY2")) VUndefined
                  (Some other_hosts) no_reversal w1 in
  let run := _jsonRequest stringify (parse_among [VObj []])
               (always (json_response 200 (VObj []))) second.1 list_indexes second.2 in
  hosts_tried run.1 = [VStr (lit "a.example.com")] ∧
  map (fun r => header_of r "X-Algolia-API-Key") (sent run.1) = [Some (VStr (lit "KEY2"))].
Proof. vm_compute. done. Qed.

(** ** The methods of an index *)

Section IndexFacts.

Variable JSON_stringify : value -> jsstring.
Variable JSON_parse : jsstring -> option value.
Variable net : nat -> request -> reply.

Local Abbreviation dispatch := (_jsonRequest JSON_stringify JSON_parse net).
Local Abbreviation poll := (waitTask JSON_stringify JSON_parse net).

(** *** [waitTask] *)

Lemma task_verdict_published r :
  is_published r → task_verdict r = inr (Some {| error := false; content := cr_body r |}).
Proof.
  intros (Herr & status & Hget & Heq). unfold task_verdict.
  by rewrite Herr, Hget, Heq.
Qed.

Lemma task_verdict_pending r :
  is_pending r → task_verdict r = inr None.
Proof.
  intros (Herr & status & pending & Hget & Heq & Hget' & Htruthy). unfold task_verdict.
  by rewrite Herr, Hget, Heq, Hget', Htruthy.
Qed.

Lemma task_verdict_neither r :
  is_neither r → task_verdict r = inr (Some {| error := true; content := cr_body r |}).
Proof.
  intros (Herr & status & pending & Hget & Heq & Hget' & Htruthy). unfold task_verdict.
  by rewrite Herr, Hget, Heq, Hget', Htruthy.
Qed.

Lemma task_verdict_error r :
  cr_error r = true → task_verdict r = inr (Some {| error := true; content := cr_body r |}).
Proof. intros Herr. unfold task_verdict. by rewrite Herr. Qed.

Variable indexObj : index.
Variable taskID : value.
Variable name : jsstring.
Hypothesis name_encoded : encodeURIComponent (indexName indexObj) = Some name.

Local Abbreviation status_check := (status_check name taskID).
Local Abbreviation ask := (dispatch (as_ indexObj) status_check).
Local Abbreviation polled := (polled JSON_stringify JSON_parse net (as_ indexObj) status_check).

(** One poll whose answer ends the wait. *)
Lemma waitTask_last fuel w w' r a :
  ask w = (w', Resolved r) →
  task_verdict r = inr (Some a) →
  poll (S fuel) indexObj taskID w = (w', Resolved a) ∧
  calls w' = calls w ++ [status_check].
Proof.
  intros Hcall Hverdict. cbn [waitTask]. rewrite name_encoded.
  rewrite Hcall, Hverdict. split; [done|].
  by apply jsonRequest_trace in Hcall as (_ & Hcalls & _).
Qed.

(** One poll whose answer is pending: the wait goes on from the world
    this poll leaves. *)
Lemma waitTask_again fuel w w' r :
  ask w = (w', Resolved r) →
  is_pending r →
  poll (S fuel) indexObj taskID w = poll fuel indexObj taskID w' ∧
  calls w' = calls w ++ [status_check].
Proof.
  intros Hcall Hpending. cbn [waitTask]. rewrite name_encoded.
  rewrite Hcall, (task_verdict_pending _ Hpending). split; [done|].
  by apply jsonRequest_trace in Hcall as (_ & Hcalls & _).
Qed.

Lemma waitTask_polled k : ∀ fuel w w',
  polled k w w' →
  poll (k + fuel) indexObj taskID w = poll fuel indexObj taskID w' ∧
  calls w' = calls w ++ replicate k status_check.
Proof.
  induction k as [|k IH]; intros fuel w w' Hpolled;
    inversion Hpolled as [|k' w0 w1 w2 r Hcall Hpending Hrest']; subst.
  - by rewrite app_nil_r.
  - destruct (waitTask_again (k + fuel) _ _ _ Hcall Hpending) as [Hstep Hcalls].
    destruct (IH fuel _ _ Hrest') as [Hrest Hcalls'].
    simpl plus. rewrite Hstep, Hrest. split; [done|].
    rewrite Hcalls', Hcalls, <- app_assoc. done.
Qed.

(** C6, as the code has it.  For an index whose name can be encoded and
    for every task identifier:
    - when three status checks in a row are answered, without error,
      pending (pendingTask truthy, status not 'published'), pending and
      published, [waitTask] makes exactly these three checks and passes
      [(false, body)] with the third body to its callback;
    - when the first check is answered, without error, by a body whose
      status is not 'published' and whose pendingTask is not truthy,
      [waitTask] passes [(true, body)] after this one check;
    - when a check, the first or one that follows pending answers, is
      resolved with an error, [waitTask] passes [(true, body)] at once
      and makes no further check;
    - when a check, the first or one that follows pending answers, is
      answered published, whatever its pendingTask is, [waitTask] passes
      [(false, body)] at once. *)
Theorem waitTask_protocol (fuel : nat) (w0 : world) :
  (∀ w1 w2 w3 r1 r2 r3,
     ask w0 = (w1, Resolved r1) → is_pending r1 →
     ask w1 = (w2, Resolved r2) → is_pending r2 →
     ask w2 = (w3, Resolved r3) → is_published r3 →
     poll (3 + fuel) indexObj taskID w0 =
       (w3, Resolved {| error := false; content := cr_body r3 |}) ∧
     calls w3 = calls w0 ++ [status_check; status_check; status_check]) ∧
  (∀ w1 r,
     ask w0 = (w1, Resolved r) → is_neither r →
     poll (1 + fuel) indexObj taskID w0 =
       (w1, Resolved {| error := true; content := cr_body r |}) ∧
     calls w1 = calls w0 ++ [status_check]) ∧
  (∀ k wk w' r,
     polled k w0 wk →
     ask wk = (w', Resolved r) → cr_error r = true →
     poll (S k + fuel) indexObj taskID w0 =
       (w', Resolved {| error := true; content := cr_body r |}) ∧
     calls w' = calls w0 ++ replicate (S k) status_check) ∧
  (∀ k wk w' r,
     polled k w0 wk →
     ask wk = (w', Resolved r) → is_published r →
     poll (S k + fuel) indexObj taskID w0 =
       (w', Resolved {| error := false; content := cr_body r |}) ∧
     calls w' = calls w0 ++ replicate (S k) status_check).
Proof.
  split; [|split; [|split]].
  - intros w1 w2 w3 r1 r2 r3 Hc1 Hp1 Hc2 Hp2 Hc3 Hp3.
    assert (Hpolled : polled 2 w0 w2).
    { eapply polled_more; [exact Hc1|exact Hp1|].
      eapply polled_more; [exact Hc2|exact Hp2|]. constructor. }
    destruct (waitTask_polled 2 (1 + fuel) _ _ Hpolled) as [Hskip Hcalls].
    destruct (waitTask_last fuel _ _ _ _ Hc3 (task_verdict_published _ Hp3))
      as [Hlast Hcalls3].
    replace (3 + fuel)%nat with (2 + (1 + fuel))%nat by lia.
    rewrite Hskip. split; [exact Hlast|].
    rewrite Hcalls3, Hcalls, <- app_assoc. done.
  - intros w1 r Hc Hn.
    exact (waitTask_last fuel _ _ _ _ Hc (task_verdict_neither _ Hn)).
  - intros k wk w' r Hpolled Hc Herr.
    destruct (waitTask_polled k (1 + fuel) _ _ Hpolled) as [Hskip Hcalls].
    destruct (waitTask_last fuel _ _ _ _ Hc (task_verdict_error _ Herr))
      as [Hlast Hcalls'].
    replace (S k + fuel)%nat with (k + (1 + fuel))%nat by lia.
    rewrite Hskip. split; [exact Hlast|].
    rewrite Hcalls', Hcalls, <- app_assoc.
    by rewrite <- replicate_cons_app.
  - intros k wk w' r Hpolled Hc Hp.
    destruct (waitTask_polled k (1 + fuel) _ _ Hpolled) as [Hskip Hcalls].
    destruct (waitTask_last fuel _ _ _ _ Hc (task_verdict_published _ Hp))
      as [Hlast Hcalls'].
    replace (S k + fuel)%nat with (k + (1 + fuel))%nat by lia.
    rewrite Hskip. split; [exact Hlast|].
    rewrite Hcalls', Hcalls, <- app_assoc.
    by rewrite <- replicate_cons_app.
Qed.

(** *** [saveObjects] and [partialUpdateObjects] *)

Lemma update_requests_entries action : ∀ objects encoded,
  Forall2 encoded_objectID objects encoded →
  update_requests action objects = inr (zip_with (batch_entry action) objects encoded).
Proof.
  intros objects encoded Hall.
  induction Hall as [|object e objects encoded (id & Hid & Henc) _ IH]; [done|].
  simpl. by rewrite Hid, Henc, IH.
Qed.

Lemma update_requests_encoded action : ∀ objects requests,
  update_requests action objects = inr requests →
  ∃ encoded, Forall2 encoded_objectID objects encoded.
Proof.
  induction objects as [|object rest IH]; intros requests; simpl.
  - intros _. exists []. constructor.
  - destruct (get object (lit "objectID")) as [id|] eqn:Hid; [|done].
    destruct (encodeURIComponent id) as [e|] eqn:He; [|done].
    destruct (update_requests action rest) as [|requests'] eqn:Hrest; [done|].
    intros _. destruct (IH requests' eq_refl) as [encoded Hall].
    exists (e :: encoded). constructor; [by exists id|done].
Qed.

End IndexFacts.

Section Batch.

Variable JSON_stringify : value -> jsstring.
Variable JSON_parse : jsstring -> option value.
Variable net : nat -> request -> reply.
Variable indexObj : index.
Variable objects : list value.
Variable callback : bool.
Variable w : world.

Local Abbreviation save :=
  (saveObjects JSON_stringify JSON_parse net indexObj objects callback w).
Local Abbreviation update :=
  (partialUpdateObjects JSON_stringify JSON_parse net indexObj objects callback w).

(** C10.  For every index and every list of objects.  When the name of
    the index and the objectID of each object have a percent-encoded
    form, [saveObjects] and [partialUpdateObjects] hand exactly one call to
    the dispatcher, and in its body the i-th entry of [requests] holds
    [encodeURIComponent(objects[i].objectID)] in [objectID] and
    [objects[i]] itself in [body].  Otherwise both throw before anything
    is handed over: no batch is ever built with a raw objectID. *)
Theorem batch_objectID_encoded :
  (∀ name encoded,
     encodeURIComponent (indexName indexObj) = Some name →
     Forall2 encoded_objectID objects encoded →
     calls save.1 = calls w ++ [batch_of name (lit "updateObject") objects encoded] ∧
     calls update.1
       = calls w ++ [batch_of name (lit "partialUpdateObject") objects encoded] ∧
     ∀ action i object e,
       objects !! i = Some object → encoded !! i = Some e →
       ∃ entry,
         zip_with (batch_entry action) objects encoded !! i = Some entry ∧
         get entry (lit "objectID") = Some (VStr e) ∧
         get entry (lit "body") = Some object ∧
         encoded_objectID object e) ∧
  (encodeURIComponent (indexName indexObj) = None ∨
   (¬ ∃ encoded, Forall2 encoded_objectID objects encoded) →
   (∃ e, save = (w, Uncaught e)) ∧ (∃ e, update = (w, Uncaught e))).
Proof.
  split.
  - intros name encoded Hname Hall.
    assert (Hpost : ∀ action,
      calls (post_batch JSON_stringify JSON_parse net action indexObj objects callback w).1
        = calls w ++ [batch_of name action objects encoded]).
    { intros action. unfold post_batch, dispatch_and_forward.
      rewrite (update_requests_entries action _ _ Hall), Hname.
      fold (batch_of name action objects encoded).
      destruct (_jsonRequest JSON_stringify JSON_parse net (as_ indexObj)
                  (batch_of name action objects encoded) w) as [w' c] eqn:Hcall.
      apply jsonRequest_trace in Hcall as (_ & Hcalls & _).
      by destruct c. }
    split; [apply Hpost|]. split; [apply Hpost|].
    intros action i object e Hobject He.
    exists (batch_entry action object e). split.
    + rewrite lookup_zip_with, Hobject. simpl. by rewrite He.
    + split; [done|]. split; [done|].
      eapply Forall2_lookup_lr; eauto.
  - intros Hnone.
    assert (Hpost : ∀ action, ∃ e,
      post_batch JSON_stringify JSON_parse net action indexObj objects callback w
        = (w, Uncaught e)).
    { intros action. unfold post_batch.
      destruct (update_requests action objects) as [e|requests] eqn:Hrequests.
      - by exists e.
      - destruct Hnone as [Hname|Hnone].
        + rewrite Hname. by exists URIError.
        + destruct Hnone. by eapply update_requests_encoded. }
    split; apply Hpost.
Qed.

End Batch.

(** C5.  [deleteObject] with [null] or with the empty string as objectID
    invokes the callback at once with the payload
    [{ message: 'empty objectID' }] and touches nothing, the network
    included; the error flag it passes is [false]. *)
Theorem deleteObject_empty_objectID JSON_stringify JSON_parse net indexObj w :
  let payload := VObj [(lit "message", VStr (lit "empty objectID"))] in
  deleteObject JSON_stringify JSON_parse net indexObj VNull true w
    = (w, Resolved (Some {| error := false; content := payload |})) ∧
  deleteObject JSON_stringify JSON_parse net indexObj (VStr []) true w
    = (w, Resolved (Some {| error := false; content := payload |})).
Proof. done. Qed.

(** * Runs *)

(** C1.  A pool of three hosts, each of which answers 503 with a response
    that has no Content-Type header: the 'end' handler of the first
    attempt throws, reading [res.headers['content-type'].toLowerCase()].
    One request is issued, to the first host; the two other hosts are not
    tried and the callback is not invoked. *)
Theorem bare_503_ends_dispatch (JSON_stringify : value → jsstring)
    (JSON_parse : jsstring → option value) :
  let c := (first_client three_hosts).1 in
  let w := (first_client three_hosts).2 in
  let run := _jsonRequest JSON_stringify JSON_parse (always (bare_response 503))
               c list_indexes w in
  hosts w = three_hosts ∧
  run.2 = Uncaught TypeError ∧
  hosts_tried run.1 = [VStr (lit "a.example.com")].
Proof. done. Qed.

(** C3.  A pool of three hosts whose first host answers 404 with a
    response that has no Content-Type header: the 'end' handler throws.
    No other host is tried, and the callback is not invoked either: the
    call does not end as a failure, it does not end at all. *)
Theorem bare_404_ends_dispatch (JSON_stringify : value → jsstring)
    (JSON_parse : jsstring → option value) :
  let c := (first_client three_hosts).1 in
  let w := (first_client three_hosts).2 in
  let run := _jsonRequest JSON_stringify JSON_parse (always (bare_response 404))
               c list_indexes w in
  run.2 = Uncaught TypeError ∧
  hosts_tried run.1 = [VStr (lit "a.example.com")].
Proof. done. Qed.

(** The same pool with responses that declare a content type: all three
    hosts are tried on 503, only the first on 404. *)
Example html_503_tries_every_host :
  let c := (first_client three_hosts).1 in
  let w := (first_client three_hosts).2 in
  let run := _jsonRequest stringify (parse_among [])
               (always (html_response 503 (lit "Service Unavailable"))) c list_indexes w in
  run.2 = Resolved {| cr_error := true;
                      cr_res := Some (html_response 503 (lit "Service Unavailable"));
                      cr_body := VStr (lit "Service Unavailable") |} ∧
  hosts_tried run.1 = map VStr three_hosts.
Proof. vm_compute. done. Qed.

Example html_404_tries_one_host :
  let c := (first_client three_hosts).1 in
  let w := (first_client three_hosts).2 in
  let run := _jsonRequest stringify (parse_among [])
               (always (html_response 404 (lit "Not Found"))) c list_indexes w in
  run.2 = Resolved {| cr_error := true;
                      cr_res := Some (html_response 404 (lit "Not Found"));
                      cr_body := VStr (lit "Not Found") |} ∧
  hosts_tried run.1 = [VStr (lit "a.example.com")].
Proof. vm_compute. done. Qed.

(** Two more answers on which the call ends with an exception instead of
    its callback: a 503 that declares JSON and whose text is empty, so
    that [JSON.parse] throws, and a 503 whose JSON body is [null], so that
    the log line throws on [body.message]. *)
Example json_503_empty_text :
  let c := (first_client three_hosts).1 in
  let w := (first_client three_hosts).2 in
  let res := {| statusCode := 503;
                headers := {[ lit "content-type" := lit "application/json" ]};
                chunks := [] |} in
  let run := _jsonRequest stringify (parse_among [VObj []]) (always res) c list_indexes w in
  run.2 = Uncaught SyntaxError ∧
  hosts_tried run.1 = [VStr (lit "a.example.com")].
Proof. vm_compute. done. Qed.

Example json_503_null_body :
  let c := (first_client three_hosts).1 in
  let w := (first_client three_hosts).2 in
  let run := _jsonRequest stringify (parse_among [VNull])
               (always (json_response 503 VNull)) c list_indexes w in
  run.2 = Uncaught TypeError ∧
  hosts_tried run.1 = [VStr (lit "a.example.com")].
Proof. vm_compute. done. Qed.

(** C4, at a client constructed with an empty list of hosts. *)
Lemma dispatch_empty_pool_witness :
  hosts (first_client []).2 = [] ∧
  (_jsonRequest stringify (parse_among []) (always (bare_response 200))
     (first_client []).1 list_indexes (first_client []).2).2
    = Resolved {| cr_error := true; cr_res := None;
                  cr_body := VObj [(lit "message", VStr (lit "Cannot contact server"))] |} ∧
  sent (_jsonRequest stringify (parse_among []) (always (bare_response 200))
          (first_client []).1 list_indexes (first_client []).2).1 = [].
Proof.
  split; [reflexivity|].
  destruct (dispatch_empty_pool stringify (parse_among []) (always (bare_response 200))
              (first_client []).1 list_indexes (first_client []).2 eq_refl) as [Hrun Hsent].
  split; [by rewrite Hrun | exact Hsent].
Defined.

(** C6 as stated fails: the first answer has a truthy pendingTask, and so
    has the second, and the third is published; but the first is
    published too, so [waitTask] succeeds with the first body after one
    status check, not with the third after three. *)
Lemma waitTask_published_with_pending_flag :
  let c := (first_client [lit "a.example.com"]).1 in
  let w0 := (first_client [lit "a.example.com"]).2 in
  let ask := _jsonRequest stringify (parse_among task_bodies) (scripted task_script)
                 c (status_check (lit "books") (VNum 7)) in
  let w1 := (ask w0).1 in
  let w2 := (ask w1).1 in
  (ask w0).2 = Resolved (answered task_published_others_pending) ∧
  (ask w1).2 = Resolved (answered task_pending) ∧
  (ask w2).2 = Resolved (answered task_published) ∧
  has_pending_flag (answered task_published_others_pending) ∧
  has_pending_flag (answered task_pending) ∧
  is_published (answered task_published) ∧
  waitTask stringify (parse_among task_bodies) (scripted task_script)
      3 (books c) (VNum 7) w0
    = (w1, Resolved {| error := false; content := task_published_others_pending |}) ∧
  calls w1 = [status_check (lit "books") (VNum 7)] ∧
  task_published_others_pending ≠ task_published.
Proof.
  intros c w0 ask w1 w2.
  split; [vm_compute; reflexivity|].
  split; [vm_compute; reflexivity|].
  split; [vm_compute; reflexivity|].
  split; [split; [reflexivity|]; eexists; split; reflexivity|].
  split; [split; [reflexivity|]; eexists; split; reflexivity|].
  split; [split; [reflexivity|]; eexists; split; reflexivity|].
  split; [vm_compute; reflexivity|].
  split; [vm_compute; reflexivity|].
  discriminate.
Qed.

(** C6, as the code has it, on the script pending, pending, published. *)
Lemma waitTask_protocol_witness :
  let c := (first_client [lit "a.example.com"]).1 in
  let w0 := (first_client [lit "a.example.com"]).2 in
  let ask := _jsonRequest stringify (parse_among task_bodies) (scripted pending_script)
                 c (status_check (lit "books") (VNum 7)) in
  let w3 := (ask (ask (ask w0).1).1).1 in
  encodeURIComponent (indexName (books c)) = Some (lit "books") ∧
  waitTask stringify (parse_among task_bodies) (scripted pending_script)
      3 (books c) (VNum 7) w0
    = (w3, Resolved {| error := false; content := task_published |}) ∧
  calls w3 = replicate 3 (status_check (lit "books") (VNum 7)).
Proof.
  intros c w0 ask w3. split; [reflexivity|].
  destruct (waitTask_protocol stringify (parse_among task_bodies) (scripted pending_script)
              (books c) (VNum 7) (lit "books") eq_refl 0 w0) as (Hthree & _ & _ & _).
  destruct (Hthree (ask w0).1 (ask (ask w0).1).1 w3
              (answered task_pending) (answered task_pending) (answered task_published))
    as [Hrun Hcalls].
  - vm_compute. reflexivity.
  - split; [reflexivity|]. do 2 eexists. repeat split; reflexivity.
  - vm_compute. reflexivity.
  - split; [reflexivity|]. do 2 eexists. repeat split; reflexivity.
  - vm_compute. reflexivity.
  - split; [reflexivity|]. eexists. split; reflexivity.
  - split; [exact Hrun|]. rewrite Hcalls. reflexivity.
Defined.

(** C7, at a client that forwards for the end user 192.168.0.1. *)
Lemma forwarding_headers_witness :
  VStr (lit "ADMIN") ≠ VNull ∧
  header_of (request_for stringify forwarding_client list_indexes (lit "a.example.com"))
            "X-Algolia-API-Key" = Some (VStr (lit "ADMIN")) ∧
  header_of (request_for stringify forwarding_client list_indexes (lit "a.example.com"))
            "X-Forwarded-For" = Some (VStr (lit "192.168.0.1")) ∧
  header_of (request_for stringify
               (disableRateLimitForward (first_client three_hosts).1)
               list_indexes (lit "a.example.com"))
            "X-Forwarded-For" = None.
Proof.
  assert (Hadmin : VStr (lit "ADMIN") ≠ VNull) by discriminate.
  split; [exact Hadmin|].
  destruct (forwarding_headers stringify (first_client three_hosts).1 list_indexes
              (lit "a.example.com") (VStr (lit "ADMIN")) (VStr (lit "192.168.0.1"))
              (VStr (lit "LIMITED")) Hadmin) as ((Hkey & _ & Hfor) & (_ & _ & Hoff)).
  split; [exact Hkey|]. split; [exact Hfor|exact Hoff].
Defined.

(** C8 as stated fails on the IPv6 literal [[::1]:8443]: the port is the
    empty string, which is what follows none of the colons of the host
    string, and the host name is the opening bracket. *)
Lemma port_of_ipv6_literal :
  let r := _computeRequestOptions (first_client three_hosts).1 list_indexes
             (lit "[::1]:8443") None in
  colon ∈ lit "[::1]:8443" ∧
  ro_port r = VStr [] ∧
  ro_hostname r = VStr (lit "[") ∧
  ∀ before after, lit "[::1]:8443" = before ++ colon :: after → ro_port r ≠ VStr after.
Proof.
  intros r. split; [|split; [|split]].
  - vm_compute. do 2 right. by left.
  - reflexivity.
  - reflexivity.
  - intros before after Hsplit Hport.
    assert (Hafter : after = []) by (vm_compute in Hport; congruence).
    subst after. apply (f_equal (@last N)) in Hsplit.
    rewrite last_snoc in Hsplit. vm_compute in Hsplit. discriminate.
Qed.

(** C8, as the code has it, on a request with a body and a port. *)
Lemma request_descriptor_witness :
  let r := request_for stringify (first_client three_hosts).1 add_book (lit "localhost:8080") in
  body add_book ≠ VUndefined ∧
  (colon ∉ lit "localhost") ∧ (colon ∉ lit "8080") ∧
  header_of r "Content-Type" = Some (VStr (lit "application/json")) ∧
  header_of r "Content-Length" = Some (VNum 17) ∧
  option_map (@length N) (req_written r) = Some 17%nat ∧
  length (stringify (body add_book)) = 15%nat ∧
  ro_hostname (req_options r) = VStr (lit "localhost") ∧
  ro_port (req_options r) = VStr (lit "8080").
Proof.
  intros r.
  assert (Hbody : body add_book ≠ VUndefined) by discriminate.
  assert (Hhost : colon ∉ lit "localhost").
  { vm_compute. intros Hin.
    repeat (apply elem_of_cons in Hin as [Hin|Hin]; [discriminate|]).
    by apply elem_of_nil in Hin. }
  assert (Hport : colon ∉ lit "8080").
  { vm_compute. intros Hin.
    repeat (apply elem_of_cons in Hin as [Hin|Hin]; [discriminate|]).
    by apply elem_of_nil in Hin. }
  destruct (request_descriptor stringify (first_client three_hosts).1 add_book)
    as (Hwith & _ & _ & Hcolon & _).
  destruct (Hwith Hbody (lit "localhost:8080")) as (Htype & Hlength & Hwritten).
  destruct (Hcolon (lit "localhost") (lit "8080") Hhost Hport) as (Hname & Hp).
  split; [exact Hbody|]. split; [exact Hhost|]. split; [exact Hport|].
  split; [exact Htype|]. split; [exact Hlength|].
  split; [unfold r; rewrite Hwritten; reflexivity|].
  split; [reflexivity|]. split; [exact Hname|exact Hp].
Defined.

(** C10, on two objects, one with a string and one with a number as
    objectID. *)
Lemma batch_objectID_encoded_witness :
  let c := (first_client [lit "a.example.com"]).1 in
  let w := (first_client [lit "a.example.com"]).2 in
  let net := always (json_response 200 (VObj [])) in
  encodeURIComponent (indexName (books c)) = Some (lit "books") ∧
  Forall2 encoded_objectID [book_one; book_two] [lit "a%20b%2Fc"; lit "42"] ∧
  calls (saveObjects stringify (parse_among [VObj []]) net (books c)
           [book_one; book_two] true w).1
    = [{| method := lit "POST"; url := lit "/1/indexes/books/batch";
          body := VObj [(lit "requests",
                         VArr [batch_entry (lit "updateObject") book_one (lit "a%20b%2Fc");
                               batch_entry (lit "updateObject") book_two (lit "42")])] |}].
Proof.
  intros c w net.
  assert (Hname : encodeURIComponent (indexName (books c)) = Some (lit "books"))
    by reflexivity.
  assert (Hall : Forall2 encoded_objectID [book_one; book_two] [lit "a%20b%2Fc"; lit "42"]).
  { repeat constructor; eexists; split; reflexivity. }
  split; [exact Hname|]. split; [exact Hall|].
  destruct (batch_objectID_encoded stringify (parse_among [VObj []]) net (books c)
              [book_one; book_two] true w) as [Hsome _].
  destruct (Hsome (lit "books") [lit "a%20b%2Fc"; lit "42"] Hname Hall) as (Hsave & _ & _).
  rewrite Hsave. reflexivity.
Defined.

(** * Further properties *)

(** ** Failing over from host to host *)

Section Failover.

Variable JSON_stringify : value -> jsstring.
Variable JSON_parse : jsstring -> option value.
Variable net : nat -> request -> reply.
Variable this : client.
Variable opts : options.

Local Abbreviation built := (request_for JSON_stringify this opts).
Local Abbreviation run := (impl JSON_stringify JSON_parse net).
Local Abbreviation dispatch := (_jsonRequest JSON_stringify JSON_parse net).
Local Abbreviation replied := (on_reply JSON_parse).

(** The attempt number [i] of a run of [impl] that starts in [w] at the
    host [idx]: what the handlers make of the reply to it. *)
Local Abbreviation attempt := (fun (w : world) (idx i : nat) =>
  replied (net (length (sent w) + i)%nat (built (nth (idx + i) (hosts w) [])))).

Lemma flat_map_seq_S {A} (f : nat -> list A) j : ∀ s,
  flat_map f (seq (S s) j) = flat_map (fun i => f (S i)) (seq s j).
Proof. induction j as [|j IH]; intros s; simpl; [done|by rewrite IH]. Qed.

(** [impl] reads its argument through [idx] only. *)
Lemma impl_position fuel position w :
  run fuel this opts position w =
  run fuel this opts (Some (index_of_position position)) w.
Proof. by destruct fuel. Qed.

Lemma log_failure_lines a w :
  can_log a →
  ∃ w', log_failure a w = Some w' ∧
        hosts w' = hosts w ∧ sent w' = sent w ∧ calls w' = calls w ∧
        console w' = console w ++ log_lines a.
Proof.
  unfold can_log, log_failure, log_lines. intros Hlog.
  destruct (ar_error a && negb (isUndefined (ar_body a))).
  - destruct (Hlog eq_refl) as [m ->]. by eexists.
  - eexists. by rewrite app_nil_r.
Qed.

Lemma fails_over_replied r :
  fails_over JSON_parse r →
  ∃ a, replied r = Resolved a ∧
       ar_retry a = true ∧ ar_error a = true ∧ can_log a.
Proof.
  destruct r as [e|res]; simpl.
  - intros _. eexists. split; [done|]. split; [done|]. split; [done|].
    intros _. by eexists.
  - intros (Hst & a & Hend & Hlog). exists a. split; [done|].
    destruct (on_end_resolved _ _ _ Hend) as (-> & -> & _).
    by destruct Hst as [-> | ->].
Qed.

(** While the attempts fail over, [impl] walks down the pool: after [j]
    of them it is where a call at the host [idx + j] starts, with the
    [j] requests issued and their lines logged. *)
Lemma impl_failover j : ∀ fuel position w,
  let idx := index_of_position position in
  (idx + j < length (hosts w))%nat →
  (∀ i, (i < j)%nat →
     ∃ a, attempt w idx i = Resolved a ∧
          ar_retry a = true ∧ ar_error a = true ∧ can_log a) →
  ∃ wj,
    run (j + fuel) this opts position w =
      run fuel this opts (Some (idx + j)%nat) wj ∧
    hosts wj = hosts w ∧ calls wj = calls w ∧
    sent wj = sent w ++ map built (take j (drop idx (hosts w))) ∧
    console wj = console w ++ flat_map (fun i => lines_of (attempt w idx i)) (seq 0 j).
Proof.
  induction j as [|j IH]; intros fuel position w idx Hlen Hfail.
  - exists w. rewrite Nat.add_0_r, take_0. simpl. rewrite !app_nil_r.
    split; [apply impl_position|done].
  - cbn [Nat.add impl]. fold idx.
    assert (Hidx : (idx < length (hosts w))%nat) by lia.
    apply Nat.leb_gt in Hidx as Hleb. rewrite Hleb.
    destruct (lookup_lt_is_Some_2 _ _ Hidx) as [h Hh].
    pose proof (nth_lookup_Some _ _ [] h Hh) as Hnth.
    pose proof (drop_S _ _ _ Hh) as Hdrop.
    destruct (Hfail 0%nat) as (a & Hreply & Hretry & Herror & Hlog); [lia|].
    rewrite !Nat.add_0_r in Hreply. unfold _jsonRequestByHost.
    rewrite Hreply.
    destruct (log_failure_lines a (record_request (built (nth idx (hosts w) [])) w) Hlog)
      as (w2 & Hw2 & Hh2 & Hs2 & Hc2 & Hl2).
    simpl in Hh2, Hs2, Hc2, Hl2.
    rewrite Hw2, Hretry, Herror.
    assert ((idx + 1 <? length (hosts w2))%nat = true) as ->
      by (apply Nat.ltb_lt; rewrite Hh2; lia).
    cbn [andb].
    destruct (IH fuel (Some (idx + 1)%nat) w2) as (wj & Hrun & Hhj & Hcj & Hsj & Hlj).
    + simpl. rewrite Hh2. lia.
    + intros i Hi. destruct (Hfail (S i)) as (a' & Ha' & Hrest); [lia|].
      exists a'. split; [|done]. simpl. rewrite Hh2, Hs2, length_app. simpl.
      replace (length (sent w) + 1 + i)%nat with (length (sent w) + S i)%nat by lia.
      by replace (idx + 1 + i)%nat with (idx + S i)%nat by lia.
    + simpl in Hrun, Hsj, Hlj. exists wj. rewrite Hrun.
      split; [by replace (idx + S j)%nat with (idx + 1 + j)%nat by lia|].
      split; [congruence|]. split; [congruence|]. split.
      * rewrite Hsj, Hs2, Hh2, Hdrop, <- app_assoc, Nat.add_1_r, Hnth. done.
      * rewrite Hlj, Hl2, <- app_assoc. f_equal.
        cbn [seq flat_map]. rewrite !Nat.add_0_r, Hreply. simpl. f_equal.
        rewrite flat_map_seq_S. apply flat_map_ext. intros i. rewrite Hh2, Hs2, length_app. simpl.
        replace (length (sent w) + 1 + i)%nat with (length (sent w) + S i)%nat by lia.
        by replace (idx + 1 + i)%nat with (idx + S i)%nat by lia.
Qed.

(** The attempt that ends the call: its answer is not both retryable
    and an error, or it is the answer of the last host. *)
Lemma impl_concludes fuel position w a :
  let idx := index_of_position position in
  (idx < length (hosts w))%nat →
  replied (net (length (sent w)) (built (nth idx (hosts w) []))) = Resolved a →
  can_log a →
  ar_retry a && ar_error a = false ∨ (idx + 1)%nat = length (hosts w) →
  ∃ w', run (S fuel) this opts position w = (w', Resolved (result_of a)) ∧
        hosts w' = hosts w ∧ calls w' = calls w ∧
        sent w' = sent w ++ [built (nth idx (hosts w) [])] ∧
        console w' = console w ++ log_lines a.
Proof.
  intros idx Hlen Hreply Hlog Hstop. simpl. fold idx.
  apply Nat.leb_gt in Hlen as Hleb. rewrite Hleb.
  unfold _jsonRequestByHost. rewrite Hreply.
  destruct (log_failure_lines a (record_request (built (nth idx (hosts w) [])) w) Hlog)
    as (w2 & Hw2 & Hh2 & Hs2 & Hc2 & Hl2).
  rewrite Hw2.
  assert (ar_retry a && ar_error a && (idx + 1 <? length (hosts w2))%nat = false) as ->.
  { destruct Hstop as [-> | Hlast]; [done|].
    rewrite Hh2. simpl. rewrite <- Hlast, Nat.ltb_irrefl. apply andb_false_r. }
  by exists w2.
Qed.


Lemma impl_uncaught fuel position w res e :
  let idx := index_of_position position in
  (idx < length (hosts w))%nat →
  net (length (sent w)) (built (nth idx (hosts w) [])) = Response res →
  throws JSON_parse res e →
  run (S fuel) this opts position w =
    (record_request (built (nth idx (hosts w) [])) w, Uncaught e).
Proof.
  intros idx Hlen Hres Hthrows. simpl. fold idx.
  apply Nat.leb_gt in Hlen as Hleb. rewrite Hleb.
  unfold _jsonRequestByHost. rewrite Hres. simpl.
  unfold throws in Hthrows. unfold on_end.
  destruct (headers res !! lit "content-type") as [content_type|]; [|by subst].
  destruct Hthrows as [-> Hthrows].
  destruct (JSON_parse (chunks res)) as [parsed|]; [|by subst].
  destruct Hthrows as (-> & Hst & ->).
  assert ((statusCode res =? 200)%Z || (statusCode res =? 201)%Z = false) as Hfail.
  { apply orb_false_iff. split; apply Z.eqb_neq; intros Heq; apply Hst;
      rewrite Heq; set_solver. }
  unfold log_failure. simpl. by rewrite Hfail.
Qed.

(** A logical call whose first [j] attempts fail over is, after them,
    where [impl] starts at the host [j]. *)
Lemma dispatch_failover w j h :
  hosts w !! j = Some h →
  (∀ i g, (i < j)%nat → hosts w !! i = Some g →
     fails_over JSON_parse (net (length (sent w) + i)%nat (built g))) →
  ∃ wj fuel,
    dispatch this opts w = run (S fuel) this opts (Some j) wj ∧
    nth j (hosts wj) [] = h ∧
    (length (hosts wj) = j + S fuel)%nat ∧
    hosts wj = hosts w ∧ calls wj = calls w ++ [opts] ∧
    sent wj = sent w ++ map built (take j (hosts w)) ∧
    console wj = console w ++
      flat_map (fun i => lines_of (attempt w 0%nat i)) (seq 0 j).
Proof.
  intros Hh Hfail. unfold _jsonRequest.
  pose proof (lookup_lt_Some _ _ _ Hh) as Hj.
  assert (Hfuel : ∃ fuel, length (hosts w) = (j + S fuel)%nat).
  { exists (length (hosts w) - S j)%nat. lia. }
  destruct Hfuel as [fuel Hfuel]. rewrite Hfuel.
  destruct (impl_failover j (S fuel) None (record_call opts w))
    as (wj & Hrun & Hhj & Hcj & Hsj & Hlj).
  - simpl. lia.
  - intros i Hi. simpl.
    destruct (lookup_lt_is_Some_2 (hosts w) i) as [g Hg]; [lia|].
    rewrite (nth_lookup_Some _ _ [] g Hg).
    by apply fails_over_replied, Hfail.
  - simpl in Hhj, Hcj, Hsj, Hlj. exists wj, fuel.
    split; [exact Hrun|]. rewrite Hhj.
    split; [by apply nth_lookup_Some|]. by rewrite drop_0 in Hsj.
Qed.




(** X4.  No host of the pool can be reached: the request to the host
    [i] ends in the transport error [e i].  Then every host is tried
    once, in pool order; [console.log] writes one line ['Error: ' + e i]
    per host, in this order; and the callback receives the error flag, no
    response and [{ message: e }] for the error of the last host. *)
Theorem dispatch_unreachable w (e : nat → value) :
  hosts w ≠ [] →
  (∀ i g, hosts w !! i = Some g →
     net (length (sent w) + i)%nat (built g) = TransportError (e i)) →
  ∃ w',
    dispatch this opts w =
      (w', Resolved {| cr_error := true; cr_res := None;
                       cr_body := VObj [(lit "message", e (length (hosts w) - 1)%nat)] |}) ∧
    sent w' = sent w ++ map built (hosts w) ∧
    console w' = console w ++
      map (fun i => transport_log_line (e i)) (seq 0 (length (hosts w))).
Proof.
  intros Hne Herr.
  set (j := (length (hosts w) - 1)%nat).
  assert (Hj : (j < length (hosts w))%nat).
  { unfold j. destruct (hosts w); [done|simpl; lia]. }
  destruct (lookup_lt_is_Some_2 _ _ Hj) as [h Hh].
  destruct (dispatch_failover w j h Hh) as (wj & fuel & Hrun & Hnth & Hlen & Hhj & _ & Hsj & Hlj).
  { intros i g _ Hg. by rewrite (Herr i g Hg). }
  assert (Hat : length (sent wj) = (length (sent w) + j)%nat).
  { rewrite Hsj, length_app, length_map, length_take. lia. }
  set (a := {| ar_retry := true; ar_error := true; ar_res := None;
               ar_body := VObj [(lit "message", e j)] |}).
  destruct (impl_concludes fuel (Some j) wj a) as (w' & Himpl & Hh' & _ & Hs' & Hl').
  - simpl. rewrite Hhj. done.
  - simpl. by rewrite Hnth, Hat, (Herr j h Hh).
  - intros _. by eexists.
  - right. simpl. rewrite Hhj. unfold j. lia.
  - exists w'. rewrite Hrun, Himpl. split; [done|]. split.
    + simpl in Hs'. rewrite Hs', Hnth, Hsj, <- app_assoc. f_equal.
      rewrite <- (take_ge (hosts w) (S j)) at 2 by lia.
      by rewrite (take_S_r _ _ _ Hh), map_app.
    + rewrite Hl', Hlj, <- app_assoc. f_equal.
      replace (length (hosts w)) with (S j) by (unfold j; lia).
      rewrite seq_S, map_app. f_equal.
      rewrite flat_map_concat_map.
      rewrite (map_ext_in _ (fun i => [transport_log_line (e i)])).
      * clear. induction (seq 0 j) as [|i l IH]; [done|]. simpl. by rewrite IH.
      * intros i Hi. apply in_seq in Hi.
        destruct (lookup_lt_is_Some_2 (hosts w) i) as [g Hg]; [lia|].
        simpl. by rewrite (nth_lookup_Some _ _ [] g Hg), (Herr i g Hg).
Qed.

(** X5.  The first [j] hosts fail over and the host [j] sends a response
    on which the handlers throw: one without a Content-Type header, one
    that declares JSON with a text that is not JSON, or one that declares
    JSON with the text [null] and a status other than 200 and 201.  Then
    the exception ends the call: the callback is never invoked, the
    request to the host [j] is the last one, and the hosts after it are
    not tried, although the first two kinds of response may carry the
    status 503. *)
Theorem dispatch_throws w j h res e :
  hosts w !! j = Some h →
  (∀ i g, (i < j)%nat → hosts w !! i = Some g →
     fails_over JSON_parse (net (length (sent w) + i)%nat (built g))) →
  net (length (sent w) + j)%nat (built h) = Response res →
  throws JSON_parse res e →
  (dispatch this opts w).2 = Uncaught e ∧
  hosts (dispatch this opts w).1 = hosts w ∧
  sent (dispatch this opts w).1 = sent w ++ map built (take (S j) (hosts w)).
Proof.
  intros Hh Hfail Hres Hthrows.
  destruct (dispatch_failover w j h Hh Hfail)
    as (wj & fuel & Hrun & Hnth & _ & Hhj & _ & Hsj & _).
  assert (Hat : length (sent wj) = (length (sent w) + j)%nat).
  { apply lookup_lt_Some in Hh.
    rewrite Hsj, length_app, length_map, length_take. lia. }
  rewrite Hrun, (impl_uncaught fuel (Some j) wj res e).
  - split; [done|]. split; [done|]. simpl.
    rewrite Hnth, Hsj, <- app_assoc. f_equal.
    by rewrite (take_S_r _ _ _ Hh), map_app.
  - simpl. rewrite Hhj. by eapply lookup_lt_Some.
  - simpl. by rewrite Hnth, Hat.
  - done.
Qed.

(** A run of [impl] that invoked the callback, read backwards. *)
Lemma impl_resolved fuel : ∀ position w w' r,
  let idx := index_of_position position in
  (idx < length (hosts w))%nat →
  run fuel this opts position w = (w', Resolved r) →
  ∃ j a,
    (idx + j < length (hosts w))%nat ∧
    sent w' = sent w ++ map built (take (S j) (drop idx (hosts w))) ∧
    attempt w idx j = Resolved a ∧ r = result_of a ∧
    (∀ i, (i < j)%nat →
       ∃ a', attempt w idx i = Resolved a' ∧
             ar_retry a' = true ∧ ar_error a' = true) ∧
    (ar_retry a && ar_error a = false ∨ (idx + S j)%nat = length (hosts w)).
Proof.
  induction fuel as [|fuel IH]; intros position w w' r idx Hlen; cbn [impl]; fold idx;
    apply Nat.leb_gt in Hlen as Hleb; rewrite Hleb; [done|].
  destruct (lookup_lt_is_Some_2 _ _ Hlen) as [h Hh].
  pose proof (nth_lookup_Some _ _ [] h Hh) as Hnth.
  pose proof (drop_S _ _ _ Hh) as Hdrop.
  unfold _jsonRequestByHost.
  destruct (replied (net (length (sent w)) (built (nth idx (hosts w) [])))) as [a0|e|]
    eqn:Hreply; [|done|done].
  destruct (log_failure a0 _) as [w2|] eqn:Hlog; [|done].
  apply log_failure_frame in Hlog as (Hh2 & Hs2 & _). simpl in Hh2, Hs2.
  destruct (ar_retry a0 && ar_error a0 && (idx + 1 <? length (hosts w2))%nat) eqn:Hcond.
  - apply andb_true_iff in Hcond as [Hcond Hmore].
    apply andb_true_iff in Hcond as [Hretry Herror].
    apply Nat.ltb_lt in Hmore. intros Hrun.
    apply IH in Hrun as (j & a & Hj & Hsent & Hlast & Hr & Hbefore & Hstop);
      [|simpl; lia].
    simpl in Hj, Hsent, Hlast, Hbefore, Hstop.
    rewrite Hh2, Hs2, length_app in *. simpl in Hlast, Hbefore.
    exists (S j), a. split; [lia|]. split; [|split; [|split; [done|split]]].
    + rewrite Hsent, Hdrop, <- app_assoc, Nat.add_1_r, Hnth. done.
    + rewrite <- Hlast.
      replace (length (sent w) + 1 + j)%nat with (length (sent w) + S j)%nat by lia.
      by replace (idx + 1 + j)%nat with (idx + S j)%nat by lia.
    + intros i Hi. destruct i as [|i].
      * exists a0. rewrite !Nat.add_0_r. done.
      * destruct (Hbefore i) as (a' & Ha' & Hrest); [lia|].
        exists a'. split; [|done]. rewrite <- Ha'.
        replace (length (sent w) + 1 + i)%nat with (length (sent w) + S i)%nat by lia.
        by replace (idx + 1 + i)%nat with (idx + S i)%nat by lia.
    + destruct Hstop as [Hstop|Hstop]; [by left|right; lia].
  - intros [= <- <-]. exists 0%nat, a0.
    rewrite !Nat.add_0_r. split; [done|]. split.
    { by rewrite Hs2, Hdrop, Hnth. }
    split; [done|]. split; [done|]. split; [intros i Hi; lia|].
    apply andb_false_iff in Hcond as [Hcond|Hcond]; [by left|].
    apply Nat.ltb_ge in Hcond. right. rewrite Hh2 in Hcond. lia.
Qed.

(** X6.  Whenever a logical call on a pool that is not empty invokes
    its callback, the arguments are those of the last request issued:
    the requests went to the hosts 0 to [j] in pool order, each attempt
    before the last failed with [retry] set, and the callback got the
    error flag, the response and the body of the attempt at the host [j],
    which either was conclusive or was the attempt at the last host of
    the pool.  The message 'Cannot contact server' of the client itself is
    never passed on such a pool. *)
Theorem dispatch_resolved w w' r :
  hosts w ≠ [] →
  _jsonRequest JSON_stringify JSON_parse net this opts w = (w', Resolved r) →
  ∃ j h a,
    hosts w !! j = Some h ∧
    sent w' = sent w ++ map built (take (S j) (hosts w)) ∧
    on_reply JSON_parse (net (length (sent w) + j)%nat (built h)) = Resolved a ∧
    r = {| cr_error := ar_error a; cr_res := ar_res a; cr_body := ar_body a |} ∧
    (∀ i g, (i < j)%nat → hosts w !! i = Some g →
       ∃ a', on_reply JSON_parse (net (length (sent w) + i)%nat (built g)) = Resolved a' ∧
             ar_retry a' = true ∧ ar_error a' = true) ∧
    (ar_retry a && ar_error a = false ∨ S j = length (hosts w)).
Proof.
  intros Hne. unfold _jsonRequest. intros Hrun.
  apply impl_resolved in Hrun as (j & a & Hj & Hsent & Hlast & Hr & Hbefore & Hstop).
  2: { simpl. destruct (hosts w); [done|simpl; lia]. }
  simpl in Hj, Hsent, Hlast, Hbefore, Hstop. rewrite drop_0 in Hsent.
  destruct (lookup_lt_is_Some_2 _ _ Hj) as [h Hh].
  rewrite (nth_lookup_Some _ _ [] h Hh) in Hlast.
  exists j, h, a. repeat (split; [done|]). split; [|done].
  intros i g Hi Hg. destruct (Hbefore i Hi) as (a' & Ha' & Hrest).
  rewrite (nth_lookup_Some _ _ [] g Hg) in Ha'. by exists a'.
Qed.

End Failover.

(** ** Searching a text *)

Lemma starts_with_prefix pat : ∀ s,
  starts_with pat s = true ↔ ∃ post, s = pat ++ post.
Proof.
  induction pat as [|p pat IH]; intros s.
  - split; [by exists s|done].
  - destruct s as [|c s]; simpl.
    + split; [done|]. by intros [post Hpost].
    + rewrite andb_true_iff, N.eqb_eq, IH. split.
      * intros [-> [post ->]]. by exists post.
      * intros [post [= -> ->]]. split; [done|by exists post].
Qed.

(** [s.indexOf(pat) >= 0] says that [pat] occurs in [s]. *)
Lemma indexOf_from_found pat : ∀ s pos,
  (0 ≤ pos)%Z →
  (0 ≤ indexOf_from pos s pat)%Z ↔ ∃ pre post, s = pre ++ pat ++ post.
Proof.
  induction s as [|c s IH]; intros pos Hpos; cbn [indexOf_from].
  - destruct (starts_with pat []) eqn:Hstarts.
    + split; [|done]. intros _. apply starts_with_prefix in Hstarts as [post ->].
      by exists [], post.
    + split; [lia|]. intros (pre & post & Heq).
      symmetry in Heq. apply app_eq_nil in Heq as [-> Heq].
      apply app_eq_nil in Heq as [-> ->]. done.
  - destruct (starts_with pat (c :: s)) eqn:Hstarts.
    + split; [|done]. intros _. apply starts_with_prefix in Hstarts as [post ->].
      by exists [], post.
    + rewrite IH by lia. split.
      * intros (pre & post & ->). by exists (c :: pre), post.
      * intros (pre & post & Heq). destruct pre as [|d pre].
        -- assert (starts_with pat (c :: s) = true) as Hyes
             by (apply starts_with_prefix; by exists post).
           congruence.
        -- injection Heq as -> ->. by exists pre, post.
Qed.

Lemma indexOf_found s pat :
  (indexOf s pat >=? 0)%Z = true ↔ ∃ pre post, s = pre ++ pat ++ post.
Proof.
  unfold indexOf. rewrite <- (indexOf_from_found pat s 0) by done.
  rewrite Z.geb_le. done.
Qed.

Lemma not_elem_of_pair (x a b : Z) : x ≠ a → x ≠ b → x ∉ [a; b].
Proof.
  intros Ha Hb Hin. apply elem_of_cons in Hin as [Hin|Hin]; [done|].
  apply elem_of_cons in Hin as [Hin|Hin]; [done|]. by apply elem_of_nil in Hin.
Qed.

Section Decoding.

Variable JSON_parse : jsstring -> option value.

(** X7.  How the 'end' handler reads the text of a response that has
    a Content-Type.  The text is parsed as JSON exactly when the header,
    put in lower case, contains [application/json] somewhere, whatever
    stands before and after it; every other text is handed over as a
    string, unparsed.  Either way [retry] is set for the statuses 0 and
    503 and [error] for every status but 200 and 201. *)
Theorem on_end_decoding res content_type :
  headers res !! lit "content-type" = Some content_type →
  let retry := bool_decide (statusCode res ∈ [0; 503]%Z) in
  let failed := bool_decide (statusCode res ∉ [200; 201]%Z) in
  ((∃ before after,
      toLowerCase content_type = before ++ lit "application/json" ++ after) →
   on_end JSON_parse res =
     match JSON_parse (chunks res) with
     | Some parsed => Resolved {| ar_retry := retry; ar_error := failed;
                                  ar_res := Some res; ar_body := parsed |}
     | None => Uncaught SyntaxError
     end) ∧
  ((¬ ∃ before after,
      toLowerCase content_type = before ++ lit "application/json" ++ after) →
   on_end JSON_parse res =
     Resolved {| ar_retry := retry; ar_error := failed;
                 ar_res := Some res; ar_body := VStr (chunks res) |}).
Proof.
  intros Hheader retry failed.
  assert (Hretry : (statusCode res =? 0)%Z || (statusCode res =? 503)%Z = retry).
  { unfold retry. destruct (statusCode res =? 0)%Z eqn:H0.
    - apply Z.eqb_eq in H0. rewrite H0. done.
    - destruct (statusCode res =? 503)%Z eqn:H503.
      + apply Z.eqb_eq in H503. rewrite H503. done.
      + apply Z.eqb_neq in H0, H503. symmetry. apply bool_decide_eq_false.
        by apply not_elem_of_pair. }
  assert (Hfailed : negb ((statusCode res =? 200)%Z || (statusCode res =? 201)%Z) = failed).
  { unfold failed. destruct (statusCode res =? 200)%Z eqn:H200.
    - apply Z.eqb_eq in H200. rewrite H200. done.
    - destruct (statusCode res =? 201)%Z eqn:H201.
      + apply Z.eqb_eq in H201. rewrite H201. done.
      + apply Z.eqb_neq in H200, H201. symmetry. apply bool_decide_eq_true.
        by apply not_elem_of_pair. }
  unfold on_end. rewrite Hheader, Hretry, Hfailed. split.
  - intros Hfound. apply indexOf_found in Hfound. by rewrite Hfound.
  - intros Hnone.
    destruct (indexOf (toLowerCase content_type) (lit "application/json") >=? 0)%Z
      eqn:Hindex; [|done].
    by apply indexOf_found in Hindex.
Qed.

End Decoding.

(** ** The order of the pool *)

Lemma add_hosts_app random : ∀ init i pool h,
  add_hosts random i (init ++ [h]) pool =
  (if random (i + length init)%nat then rev (add_hosts random i init pool)
   else add_hosts random i init pool) ++ [h].
Proof.
  induction init as [|g init IH]; intros i pool h; simpl.
  - by rewrite Nat.add_0_r.
  - rewrite IH. by replace (S i + length init)%nat with (i + S (length init))%nat by lia.
Qed.

Lemma add_hosts_in_order random : ∀ hostsArray i pool,
  (∀ k, random k = false) →
  add_hosts random i hostsArray pool = pool ++ hostsArray.
Proof.
  induction hostsArray as [|h rest IH]; intros i pool Hcoins; simpl.
  - by rewrite app_nil_r.
  - rewrite Hcoins, IH, <- app_assoc by done. done.
Qed.

(** X8.  The constructor adds the hosts it is given, or the three
    default names made of the application id, to the hosts that the
    prototype holds already: the pool afterwards is a rearrangement of
    both together, nothing dropped and nothing repeated, whatever
    [Math.random] returns.  It sends nothing, logs nothing and makes no
    call. *)
Theorem AlgoliaSearch_adds_hosts applicationID apiKey httpsAgent hostsArray random w :
  let w' := (AlgoliaSearch applicationID apiKey httpsAgent hostsArray random w).2 in
  hosts w' ≡ₚ hosts w ++ match hostsArray with
                         | Some given => given
                         | None => [ToString applicationID ++ lit "-1.algolia.io";
                                    ToString applicationID ++ lit "-2.algolia.io";
                                    ToString applicationID ++ lit "-3.algolia.io"]
                         end ∧
  sent w' = sent w ∧ console w' = console w ∧ calls w' = calls w.
Proof.
  intros w'. split; [|done]. unfold w', AlgoliaSearch. cbn [snd set_hosts hosts].
  fold (default_hosts applicationID).
  destruct (random _).
  - by rewrite <- Permutation_rev, add_hosts_permutation.
  - apply add_hosts_permutation.
Qed.

(** X9.  The hosts are not added in a uniformly random order: the host
    given last is pushed last, and only the reversal after the loop can
    move it, so that it ends up last in the pool, or first, and never
    between two other hosts.  Which of the two is decided by the last
    call of [Math.random]. *)
Theorem AlgoliaSearch_last_host_at_an_end applicationID apiKey httpsAgent
    init h random w :
  let w' := (AlgoliaSearch applicationID apiKey httpsAgent (Some (init ++ [h]))
               random w).2 in
  ∃ rest, rest ≡ₚ hosts w ++ init ∧
    hosts w' = if random (length (init ++ [h])) then h :: rest else rest ++ [h].
Proof.
  intros w'. unfold w', AlgoliaSearch. cbn [snd set_hosts hosts].
  rewrite add_hosts_app.
  set (pool := if random (0 + length init)%nat
               then rev (add_hosts random 0 init (hosts w))
               else add_hosts random 0 init (hosts w)).
  assert (Hpool : pool ≡ₚ hosts w ++ init).
  { unfold pool. destruct (random _).
    - by rewrite <- Permutation_rev, add_hosts_permutation.
    - apply add_hosts_permutation. }
  destruct (random (length (init ++ [h]))).
  - exists (rev pool). split; [by rewrite <- Permutation_rev|].
    by rewrite rev_app_distr.
  - by exists pool.
Qed.

(** X10.  When [Math.random] never returns more than 0.5 during the
    construction, nothing is reversed: the hosts given follow the hosts
    that the prototype holds already, in the order given. *)
Theorem AlgoliaSearch_keeps_order applicationID apiKey httpsAgent given random w :
  (∀ k, random k = false) →
  hosts (AlgoliaSearch applicationID apiKey httpsAgent (Some given) random w).2
    = hosts w ++ given.
Proof.
  intros Hcoins. unfold AlgoliaSearch. cbn [snd set_hosts hosts].
  by rewrite Hcoins, add_hosts_in_order.
Qed.

(** ** The requests of a client *)

Section ClientRequests.

Variable JSON_stringify : value -> jsstring.
Variable opts : options.
Variable hostname : jsstring.

Local Abbreviation built := (request_for JSON_stringify).

(** X11.  The names of the headers of a request, all of them: the five
    that every request has, Content-Type when the call has a body, and
    the two forwarding headers when the admin key stored is not [null].
    No other header is ever set. *)
Theorem request_header_names this :
  dom (ro_headers (req_options (built this opts hostname))) =
    ({[ lit "X-Algolia-Application-Id"; lit "X-Algolia-API-Key";
        lit "Connection"; lit "Content-Length"; lit "User-Agent" ]}
     ∪ (if isUndefined (body opts) then ∅ else {[ lit "Content-Type" ]})
     ∪ (if is_null (forwardAdminAPIKey this) then ∅
        else {[ lit "X-Forwarded-API-Key"; lit "X-Forwarded-For" ]})
     : gset jsstring).
Proof.
  unfold request_for, _computeRequestOptions. cbn [req_options ro_headers].
  destruct (isUndefined (body opts)), (is_null (forwardAdminAPIKey this));
    cbn [negb]; rewrite ?dom_insert_L, dom_empty_L; set_solver.
Qed.

(** X12.  A client as the constructor returns it.  Its requests carry
    the application id and the API key given and no forwarding header,
    and they go through the agent given, or through the default agent
    when [httpsAgent] is [undefined] or [null].  Forwarding enabled and
    then disabled gives the client back as it was constructed. *)
Theorem constructed_client_requests applicationID apiKey httpsAgent hostsArray random w :
  let c := (AlgoliaSearch applicationID apiKey httpsAgent hostsArray random w).1 in
  let r := built c opts hostname in
  header_of r "X-Algolia-Application-Id" = Some applicationID ∧
  header_of r "X-Algolia-API-Key" = Some apiKey ∧
  header_of r "X-Forwarded-API-Key" = None ∧
  header_of r "X-Forwarded-For" = None ∧
  ro_agent (req_options r)
    = (if isUndefined httpsAgent || is_null httpsAgent then None else Some httpsAgent) ∧
  ∀ adminAPIKey endUserIP rateLimitAPIKey,
    disableRateLimitForward
      (enableRateLimitForward c adminAPIKey endUserIP rateLimitAPIKey) = c.
Proof.
  intros c r.
  destruct (headers_plain c opts hostname
              (if negb (isUndefined (body opts))
               then Some (JSON_stringify (body opts)) else None) eq_refl)
    as (Hkey & Hfk & Hff).
  split; [|split; [exact Hkey|split; [exact Hfk|split; [exact Hff|split]]]].
  - unfold r, header_of, request_for, _computeRequestOptions.
    cbn [req_options ro_headers forwardAdminAPIKey c fst AlgoliaSearch
         disableRateLimitForward is_null negb].
    destruct (negb (isUndefined (body opts))); vm_compute; reflexivity.
  - by destruct httpsAgent.
  - done.
Qed.

End ClientRequests.

(** ** Percent-encoding *)

Lemma hex_digit_range d : 48 ≤ hex_digit d.
Proof. unfold hex_digit. destruct (d <? 10); lia. Qed.

Lemma percent_all_without c bytes :
  c < 48 → c ≠ 37 → c ∉ percent_all bytes.
Proof.
  intros Hc H37. unfold percent_all.
  induction bytes as [|b bytes IH]; [apply not_elem_of_nil|].
  cbn [map concat]. unfold percent at 1. cbn [app].
  pose proof (hex_digit_range (b / 16)). pose proof (hex_digit_range (b mod 16)).
  repeat (apply not_elem_of_cons; split; [lia|]). done.
Qed.

(** None of the characters that structure a url survives
    [encodeURIComponent]: a character below ['0'] that is neither
    unreserved nor the percent sign does not occur in its result. *)
Lemma encodeURI_units_without c n : ∀ s out,
  c < 48 → c ≠ 37 → is_unreserved c = false →
  (length s ≤ n)%nat → encodeURI_units s = Some out → c ∉ out.
Proof.
  induction n as [|n IH]; intros s out Hc H37 Hres Hlen.
  { destruct s; [|simpl in Hlen; lia]. intros [= <-]. apply not_elem_of_nil. }
  destruct s as [|d rest]; [intros [= <-]; apply not_elem_of_nil|].
  simpl in Hlen. cbn [encodeURI_units].
  destruct (is_unreserved d) eqn:Hun.
  { destruct (encodeURI_units rest) as [out'|] eqn:Hout; [|done].
    intros [= <-]. apply not_elem_of_cons. split; [intros ->; congruence|].
    apply (IH rest); [done|done|done|lia|done]. }
  destruct (is_low_surrogate d); [done|].
  destruct (is_high_surrogate d).
  - destruct rest as [|d' rest']; [done|].
    destruct (is_low_surrogate d'); [|done].
    destruct (encodeURI_units rest') as [out'|] eqn:Hout; [|done].
    intros [= <-]. apply not_elem_of_app. split.
    + by apply percent_all_without.
    + simpl in Hlen. apply (IH rest'); [done|done|done|lia|done].
  - destruct (encodeURI_units rest) as [out'|] eqn:Hout; [|done].
    intros [= <-]. apply not_elem_of_app. split.
    + by apply percent_all_without.
    + apply (IH rest); [done|done|done|lia|done].
Qed.

Lemma encodeURIComponent_without c v out :
  c < 48 → c ≠ 37 → is_unreserved c = false →
  encodeURIComponent v = Some out → c ∉ out.
Proof.
  intros Hc H37 Hres. by apply (encodeURI_units_without c (length (ToString v))).
Qed.

(** ** One object at a time *)

Section Objects.

Variable JSON_stringify : value -> jsstring.
Variable JSON_parse : jsstring -> option value.
Variable net : nat -> request -> reply.
Variable indexObj : index.
Variable callback : bool.
Variable w : world.

Local Abbreviation add_one := (addObject JSON_stringify JSON_parse net indexObj).
Local Abbreviation save_one := (saveObject JSON_stringify JSON_parse net indexObj).
Local Abbreviation update_one := (partialUpdateObject JSON_stringify JSON_parse net indexObj).
Local Abbreviation delete_one := (deleteObject JSON_stringify JSON_parse net indexObj).
Local Abbreviation add_many := (addObjects JSON_stringify JSON_parse net indexObj).

(** A method that hands [o] to the dispatcher journals this one call. *)
Lemma dispatch_and_forward_calls c o v :
  calls (dispatch_and_forward JSON_stringify JSON_parse net c o callback v).1
    = calls v ++ [o].
Proof.
  unfold dispatch_and_forward.
  destruct (_jsonRequest JSON_stringify JSON_parse net c o v) as [w' r] eqn:Hcall.
  apply jsonRequest_trace in Hcall as (_ & Hcalls & _). by destruct r.
Qed.

(** X13.  The url of [saveObject] and of [partialUpdateObject] keeps its
    shape whatever characters the name of the index and the objectID
    hold: cut at its slashes it is ['', '1', 'indexes', name, id], followed
    by ['partial'] for a partial update, with the name and the objectID in
    their percent-encoded forms.  A slash in an objectID never opens a
    further segment. *)
Theorem object_url_segments object objectID name id :
  encodeURIComponent (indexName indexObj) = Some name →
  get object (lit "objectID") = Some objectID →
  encodeURIComponent objectID = Some id →
  ∃ path path',
    calls (save_one object callback w).1
      = calls w ++ [{| method := lit "PUT"; url := path; body := object |}] ∧
    split slash path = [[]; lit "1"; lit "indexes"; name; id] ∧
    calls (update_one object callback w).1
      = calls w ++ [{| method := lit "POST"; url := path'; body := object |}] ∧
    split slash path' = [[]; lit "1"; lit "indexes"; name; id; lit "partial"].
Proof.
  intros Hname Hget Hid.
  assert (Hn : slash ∉ name)
    by by apply (encodeURIComponent_without slash (indexName indexObj)).
  assert (Hi : slash ∉ id)
    by by apply (encodeURIComponent_without slash objectID).
  exists (lit "/1/indexes/" ++ name ++ lit "/" ++ id ++ []),
         (lit "/1/indexes/" ++ name ++ lit "/" ++ id ++ lit "/partial").
  unfold saveObject, partialUpdateObject, object_url.
  rewrite Hname, Hget, Hid, !dispatch_and_forward_calls.
  split; [done|]. split; [|split; [done|]].
  - change (split slash (lit "/1/indexes/" ++ name ++ lit "/" ++ id ++ []))
      with ([] :: lit "1" :: lit "indexes" :: split slash (name ++ slash :: id ++ [])).
    by rewrite split_app_sep, app_nil_r, split_absent.
  - change (split slash (lit "/1/indexes/" ++ name ++ lit "/" ++ id ++ lit "/partial"))
      with ([] :: lit "1" :: lit "indexes"
              :: split slash (name ++ slash :: id ++ slash :: lit "partial")).
    rewrite split_app_sep, split_app_sep by done. done.
Qed.

(** X14.  [saveObject(object, callback)] is
    [addObject(object, callback, object.objectID)] whenever the object has
    an objectID: the same call, the same requests, the same answer,
    the same exceptions. *)
Theorem saveObject_as_addObject object objectID :
  get object (lit "objectID") = Some objectID →
  objectID ≠ VUndefined →
  save_one object callback w = add_one object callback objectID w.
Proof.
  intros Hget Hdefined. unfold saveObject, object_url, addObject.
  assert (isUndefined objectID = false) as -> by by destruct objectID.
  rewrite Hget.
  destruct (encodeURIComponent (indexName indexObj)); [|done].
  destruct (encodeURIComponent objectID); [|done].
  by rewrite app_nil_r.
Qed.

(** X15.  An object without an objectID is not refused: [saveObject]
    and [partialUpdateObject] write the text ['undefined'] where the
    objectID belongs and hand the call to the dispatcher, whereas
    [addObject] without an objectID posts to the index itself. *)
Theorem objectID_missing object name :
  encodeURIComponent (indexName indexObj) = Some name →
  get object (lit "objectID") = Some VUndefined →
  calls (save_one object callback w).1
    = calls w ++ [{| method := lit "PUT";
                    url := lit "/1/indexes/" ++ name ++ lit "/undefined";
                    body := object |}] ∧
  calls (update_one object callback w).1
    = calls w ++ [{| method := lit "POST";
                    url := lit "/1/indexes/" ++ name ++ lit "/undefined/partial";
                    body := object |}] ∧
  calls (add_one object callback VUndefined w).1
    = calls w ++ [{| method := lit "POST";
                    url := lit "/1/indexes/" ++ name;
                    body := object |}].
Proof.
  intros Hname Hget. unfold saveObject, partialUpdateObject, object_url, addObject.
  cbn [isUndefined]. rewrite Hname, Hget.
  change (encodeURIComponent VUndefined) with (Some (lit "undefined")).
  by rewrite !dispatch_and_forward_calls.
Qed.

(** X16.  [addObjects] never throws on its objects, whatever they are:
    it hands one call to the dispatcher, a POST to the batch url of the
    index, in which the entry [i] has the action ['addObject'], the body
    [objects[i]] and no objectID; there are as many entries as objects. *)
Theorem addObjects_batch objects name :
  encodeURIComponent (indexName indexObj) = Some name →
  ∃ requests,
    calls (add_many objects callback w).1
      = calls w ++ [{| method := lit "POST";
                      url := lit "/1/indexes/" ++ name ++ lit "/batch";
                      body := VObj [(lit "requests", VArr requests)] |}] ∧
    length requests = length objects ∧
    ∀ i object, objects !! i = Some object →
      ∃ entry, requests !! i = Some entry ∧
        get entry (lit "action") = Some (VStr (lit "addObject")) ∧
        get entry (lit "body") = Some object ∧
        get entry (lit "objectID") = Some VUndefined.
Proof.
  intros Hname. exists (add_requests objects). unfold addObjects.
  rewrite Hname, dispatch_and_forward_calls. split; [done|].
  unfold add_requests. split; [by rewrite length_map|].
  intros i object Hobject. eexists. split.
  - rewrite list_lookup_fmap, Hobject. done.
  - done.
Qed.

(** X17.  What [deleteObject] does with an objectID, case by case.
    [undefined] makes it throw, reading [objectID.length].  [null] and
    every value whose [length] is 0, the empty string and the empty array
    among them, never reach the network: with a callback it is told
    [(false, { message: 'empty objectID' })], and without one the call of
    the missing callback throws.  Every other objectID with an encoded
    form, the number 0 included, is deleted with one call: a DELETE
    without body on the url of the object. *)
Theorem deleteObject_cases objectID :
  (objectID = VUndefined → delete_one objectID callback w = (w, Uncaught TypeError)) ∧
  (objectID = VNull ∨ get objectID (lit "length") = Some (VNum 0) →
     delete_one objectID callback w =
       (w, if callback
           then Resolved (Some {| error := false; content := empty_objectID |})
           else Uncaught TypeError)) ∧
  (∀ len name id,
     objectID ≠ VNull →
     get objectID (lit "length") = Some len → len ≠ VNum 0 →
     encodeURIComponent (indexName indexObj) = Some name →
     encodeURIComponent objectID = Some id →
     calls (delete_one objectID callback w).1
       = calls w ++ [{| method := lit "DELETE";
                       url := lit "/1/indexes/" ++ name ++ lit "/" ++ id;
                       body := VUndefined |}]).
Proof.
  split; [by intros ->|]. split.
  - intros [-> | Hlen]; unfold deleteObject.
    + by destruct callback.
    + destruct (is_null objectID); [by destruct callback|].
      rewrite Hlen. by destruct callback.
  - intros len name id Hnull Hlen Hzero Hname Hid. unfold deleteObject.
    assert (is_null objectID = false) as -> by by destruct objectID.
    rewrite Hlen. cbn [option_map].
    assert (strict_eq_num len 0 = false) as ->.
    { destruct len as [| |b|n|s|xs|props]; try done. simpl.
      apply Z.eqb_neq. congruence. }
    by rewrite Hname, Hid, dispatch_and_forward_calls.
Qed.

End Objects.

(** ** What a wait that ended went through *)

Section Waiting.

Variable JSON_stringify : value -> jsstring.
Variable JSON_parse : jsstring -> option value.
Variable net : nat -> request -> reply.
Variable indexObj : index.
Variable taskID : value.

Local Abbreviation dispatch := (_jsonRequest JSON_stringify JSON_parse net).
Local Abbreviation poll := (waitTask JSON_stringify JSON_parse net).
Local Abbreviation pending_polls := (fun name =>
  polled JSON_stringify JSON_parse net (as_ indexObj) (status_check name taskID)).

(** The verdict on an answer, read backwards. *)
Lemma task_verdict_again r : task_verdict r = inr None → is_pending r.
Proof.
  unfold task_verdict, is_pending.
  destruct (cr_error r); [done|]. simpl.
  destruct (get (cr_body r) (lit "status")) as [status|]; [|done].
  destruct (strict_eq_string status (lit "published")) eqn:Hstatus; [done|].
  destruct (get (cr_body r) (lit "pendingTask")) as [pendingTask|]; [|done].
  destruct (truthy pendingTask) eqn:Htruthy; [|done].
  intros _. split; [done|]. by exists status, pendingTask.
Qed.

Lemma task_verdict_answer r a :
  task_verdict r = inr (Some a) →
  content a = cr_body r ∧ (error a = false ↔ is_published r).
Proof.
  unfold task_verdict, is_published.
  destruct (cr_error r).
  { intros [= <-]. split; [done|]. split; [done|]. by intros [? _]. }
  simpl.
  destruct (get (cr_body r) (lit "status")) as [status|]; [|done].
  destruct (strict_eq_string status (lit "published")) eqn:Hstatus.
  { intros [= <-]. split; [done|]. split; [|done]. intros _. split; [done|].
    by exists status. }
  destruct (get (cr_body r) (lit "pendingTask")) as [pendingTask|]; [|done].
  destruct (truthy pendingTask); [done|].
  intros [= <-]. split; [done|]. split; [done|].
  intros (_ & status' & [= <-] & Hpublished). congruence.
Qed.

Lemma waitTask_resolved_at name :
  encodeURIComponent (indexName indexObj) = Some name →
  ∀ fuel w w' a,
    poll fuel indexObj taskID w = (w', Resolved a) →
    ∃ k wk r,
      (k < fuel)%nat ∧ pending_polls name k w wk ∧
      dispatch (as_ indexObj) (status_check name taskID) wk = (w', Resolved r) ∧
      content a = cr_body r ∧ (error a = false ↔ is_published r) ∧
      calls w' = calls w ++ replicate (S k) (status_check name taskID).
Proof.
  intros Hname. induction fuel as [|fuel IH]; intros w w' a; [done|].
  cbn [waitTask]. rewrite Hname.
  destruct (dispatch (as_ indexObj) (status_check name taskID) w) as [w1 c] eqn:Hcall.
  pose proof (jsonRequest_trace _ _ _ _ _ _ _ _ Hcall) as (_ & Hcalls & _).
  destruct c as [r|e|]; [|done|done].
  destruct (task_verdict r) as [e|[a'|]] eqn:Hverdict; [done| |].
  - intros [= <- <-]. exists 0%nat, w, r.
    destruct (task_verdict_answer _ _ Hverdict) as [Hcontent Herror].
    split; [lia|]. split; [constructor|]. split; [exact Hcall|].
    split; [exact Hcontent|]. split; [exact Herror|exact Hcalls].
  - intros Hrest. apply IH in Hrest as (k & wk & r' & Hk & Hpolled & Hlast & Hc & He & Hj).
    exists (S k), wk, r'. split; [lia|]. split.
    + eapply polled_more; [exact Hcall|by apply task_verdict_again|exact Hpolled].
    + repeat (split; [done|]). rewrite Hj, Hcalls, <- app_assoc. done.
Qed.

(** X18.  Whenever [waitTask] invokes its callback, with [a], this is
    what happened before: a number of status checks in a row were each
    answered, without error, by a body that is not published and has a
    truthy pendingTask, and then one more was resolved; [a] carries the
    body of this last one, and it reports success only if this body was
    received without error and says 'published'.  The status checks are
    the only calls made, each one the same GET. *)
Theorem waitTask_resolved fuel w w' a :
  poll fuel indexObj taskID w = (w', Resolved a) →
  ∃ name k wk r,
    encodeURIComponent (indexName indexObj) = Some name ∧
    (k < fuel)%nat ∧ pending_polls name k w wk ∧
    dispatch (as_ indexObj) (status_check name taskID) wk = (w', Resolved r) ∧
    content a = cr_body r ∧ (error a = false ↔ is_published r) ∧
    calls w' = calls w ++ replicate (S k) (status_check name taskID).
Proof.
  destruct (encodeURIComponent (indexName indexObj)) as [name|] eqn:Hname.
  - intros Hpoll. exists name.
    destruct (waitTask_resolved_at name Hname _ _ _ _ Hpoll) as (k & wk & r & H).
    by exists k, wk, r.
  - destruct fuel; [done|]. cbn [waitTask]. by rewrite Hname.
Qed.

(** X19.  [waitTask] puts no bound on the number of its checks and no
    delay between them: after [k] answers in a row that are pending it
    has made [k] status checks and nothing else, it has not invoked its
    callback, and it goes on as a fresh wait would from there. *)
Theorem waitTask_keeps_polling name k w wk :
  encodeURIComponent (indexName indexObj) = Some name →
  pending_polls name k w wk →
  poll k indexObj taskID w = (wk, Unfinished) ∧
  calls wk = calls w ++ replicate k (status_check name taskID) ∧
  ∀ fuel, poll (k + fuel) indexObj taskID w = poll fuel indexObj taskID wk.
Proof.
  intros Hname Hpolled.
  pose proof (waitTask_polled JSON_stringify JSON_parse net indexObj taskID name Hname k)
    as Hskip.
  destruct (Hskip 0%nat w wk Hpolled) as [Hzero Hcalls].
  rewrite Nat.add_0_r in Hzero. split; [by rewrite Hzero|]. split; [done|].
  intros fuel. by destruct (Hskip fuel w wk Hpolled).
Qed.

End Waiting.

(** ** The query string of a search *)


Lemma query_tail_nonempty c params pieces :
  query_tail (c :: params) pieces = joined pieces.
Proof. by destruct pieces. Qed.

Section QueryString.

Variable JSON_stringify : value -> jsstring.
Variable JSON_parse : jsstring -> option value.
Variable net : nat -> request -> reply.

Local Abbreviation pieces_of := (parameter_pieces JSON_stringify).
Local Abbreviation params_of := (_getSearchParams JSON_stringify).

(** The loop of [_getSearchParams], in one piece. *)
Lemma append_parameters_pieces : ∀ entries params,
  append_parameters JSON_stringify entries params =
  option_map (fun pieces => params ++ query_tail params pieces) (pieces_of entries).
Proof.
  induction entries as [|[key v] rest IH]; intros params.
  - simpl. destruct params; by rewrite ?app_nil_r.
  - cbn [append_parameters]. unfold parameter_pieces. cbn [mapM fst snd].
    destruct (encode_parameter JSON_stringify v) as [encoded|]; [|done].
    rewrite IH. unfold parameter_pieces. cbn [option_map mbind option_bind].
    destruct (mapM _ rest) as [pieces|]; [|done]. cbn [option_map mbind option_bind mret option_ret].
    f_equal. destruct params as [|c params].
    + cbn [app]. change (lit "?" ++ key ++ lit "=" ++ encoded)
        with (63 :: parameter_text key encoded).
      rewrite query_tail_nonempty. cbn [query_tail]. done.
    + rewrite <- !app_assoc. cbn [app]. rewrite !query_tail_nonempty.
      unfold joined at 2. cbn [map concat]. fold (joined pieces).
      unfold parameter_text. cbn [app]. by rewrite <- !app_assoc.
Qed.

Lemma indexed_first_nonempty p l : indexed_first (p :: l) ≠ [].
Proof.
  unfold indexed_first. cbn [fold_right].
  destruct (array_index p.1) as [i|] eqn:Hindex.
  - set (acc := fold_right _ _ l). destruct acc as [|[j q] acc]; [done|].
    simpl. by destruct (i <? j).
  - rewrite filter_cons_True by done. by destruct (map snd _).
Qed.

(** An object with a property named hasOwnProperty has a property. *)
Lemma shadows_enumerate args :
  shadows_hasOwnProperty args = true → enumerate args ≠ [].
Proof.
  destruct args as [| |b|n|s|xs|props]; try done. simpl.
  destruct props as [|[k v] props].
  - intros Hin. apply bool_decide_eq_true in Hin. by apply elem_of_nil in Hin.
  - intros _. cbn [live_bindings].
    rewrite bool_decide_eq_false_2 by apply not_elem_of_nil.
    apply indexed_first_nonempty.
Qed.

Lemma getSearchParams_pieces args params :
  params_of args params =
    (if shadows_hasOwnProperty args then inl TypeError
     else match pieces_of (enumerate args) with
          | None => inl URIError
          | Some pieces => inr (params ++ query_tail params pieces)
          end).
Proof.
  unfold _getSearchParams.
  destruct (isUndefined args || is_null args) eqn:Hnone.
  { assert (args = VUndefined ∨ args = VNull) as [-> | ->]
      by (destruct args; auto; discriminate).
    all: simpl; destruct params; by rewrite ?app_nil_r. }
  destruct (enumerate args) as [|entry entries] eqn:Henum.
  { destruct (shadows_hasOwnProperty args) eqn:Hshadow.
    - by apply shadows_enumerate in Hshadow.
    - simpl. destruct params; by rewrite ?app_nil_r. }
  destruct (shadows_hasOwnProperty args); [done|].
  rewrite append_parameters_pieces.
  by destruct (pieces_of (entry :: entries)).
Qed.

(** X20.  [_getSearchParams(args, params)] in one piece.  It returns
    [params] followed by one text [key=value] for each own property of
    [args], in the order of enumeration, where the value is
    percent-encoded, an array after [JSON.stringify]; each text comes
    after an ampersand, but the first one after a question mark when
    [params] is empty.  The keys are written as they are.  For [null],
    [undefined], a number or a boolean it returns [params].  It throws
    when a value has no encoded form and, before that, when [args] has an
    own property named hasOwnProperty, which hides the method it calls. *)
Theorem getSearchParams_text args params :
  params_of args params =
    (if shadows_hasOwnProperty args then inl TypeError
     else match pieces_of (enumerate args) with
          | None => inl URIError
          | Some pieces => inr (params ++ query_tail params pieces)
          end) ∧
  params_of VUndefined params = inr params ∧
  params_of VNull params = inr params ∧
  (∀ n, params_of (VNum n) params = inr params) ∧
  (∀ b, params_of (VBool b) params = inr params).
Proof. split; [apply getSearchParams_pieces|done]. Qed.




End QueryString.

(** * Further runs *)



(** X4, on three hosts of which none can be reached. *)
Lemma dispatch_unreachable_witness :
  ∃ w',
    _jsonRequest stringify (parse_among []) (unreachable (VStr (lit "EHOSTUNREACH")))
        (first_client three_hosts).1 list_indexes (first_client three_hosts).2
      = (w', Resolved {| cr_error := true; cr_res := None;
                         cr_body := VObj [(lit "message", VStr (lit "EHOSTUNREACH"))] |}) ∧
    sent w' = map (request_for stringify (first_client three_hosts).1 list_indexes)
                  three_hosts ∧
    console w' = [lit "Error: EHOSTUNREACH"; lit "Error: EHOSTUNREACH";
                  lit "Error: EHOSTUNREACH"].
Proof.
  apply (dispatch_unreachable stringify (parse_among [])
           (unreachable (VStr (lit "EHOSTUNREACH")))
           (first_client three_hosts).1 list_indexes (first_client three_hosts).2
           (fun _ => VStr (lit "EHOSTUNREACH"))).
  - discriminate.
  - reflexivity.
Defined.

(** X5, on three hosts: the first cannot be reached and the second
    answers 500 with the JSON text [null]. *)
Lemma dispatch_throws_witness :
  let run := _jsonRequest stringify (parse_among [VNull]) (scripted null_script)
               (first_client three_hosts).1 list_indexes (first_client three_hosts).2 in
  run.2 = Uncaught TypeError ∧
  hosts run.1 = three_hosts ∧
  sent run.1 = map (request_for stringify (first_client three_hosts).1 list_indexes)
                   [lit "a.example.com"; lit "b.example.com"].
Proof.
  apply (dispatch_throws stringify (parse_among [VNull]) (scripted null_script)
           (first_client three_hosts).1 list_indexes (first_client three_hosts).2
           1 (lit "b.example.com") (json_response 500 VNull) TypeError).
  - reflexivity.
  - intros i g Hi _. destruct i as [|i]; [exact I|lia].
  - reflexivity.
  - unfold throws.
    change (headers (json_response 500 VNull) !! lit "content-type")
      with (Some (lit "application/json; charset=UTF-8")).
    split; [vm_compute; reflexivity|].
    change (parse_among [VNull] (chunks (json_response 500 VNull))) with (Some VNull).
    split; [reflexivity|]. split; [|reflexivity].
    vm_compute. intros Hin.
    repeat (apply elem_of_cons in Hin as [Hin|Hin]; [discriminate|]).
    by apply elem_of_nil in Hin.
Defined.

(** X6, for the call that the third of three hosts answers. *)
Lemma dispatch_resolved_witness :
  let c := (first_client three_hosts).1 in
  let w := (first_client three_hosts).2 in
  let run := _jsonRequest stringify (parse_among [VObj []]) (scripted failover_script)
               c list_indexes w in
  run.2 = Resolved (answered (VObj [])) ∧
  ∃ j h a,
    hosts w !! j = Some h ∧
    sent run.1 = sent w ++ map (request_for stringify c list_indexes) (take (S j) (hosts w)) ∧
    on_reply (parse_among [VObj []])
      (scripted failover_script (length (sent w) + j)%nat
         (request_for stringify c list_indexes h)) = Resolved a ∧
    answered (VObj [])
      = {| cr_error := ar_error a; cr_res := ar_res a; cr_body := ar_body a |} ∧
    (∀ i g, (i < j)%nat → hosts w !! i = Some g →
       ∃ a', on_reply (parse_among [VObj []])
               (scripted failover_script (length (sent w) + i)%nat
                  (request_for stringify c list_indexes g)) = Resolved a' ∧
             ar_retry a' = true ∧ ar_error a' = true) ∧
    (ar_retry a && ar_error a = false ∨ S j = length (hosts w)).
Proof.
  intros c w run. split; [vm_compute; reflexivity|].
  apply (dispatch_resolved stringify (parse_among [VObj []]) (scripted failover_script)
           c list_indexes w run.1 (answered (VObj []))).
  - discriminate.
  - vm_compute. reflexivity.
Defined.


(** X7, for a header in capitals with a parameter. *)
Lemma on_end_decoding_witness :
  on_end (parse_among [VObj []])
      {| statusCode := 200;
         headers := {[ lit "content-type" := lit "Application/JSON; charset=UTF-8" ]};
         chunks := lit "{}" |}
    = Resolved {| ar_retry := false; ar_error := false;
                  ar_res := Some {| statusCode := 200;
                                    headers := {[ lit "content-type" :=
                                                    lit "Application/JSON; charset=UTF-8" ]};
                                    chunks := lit "{}" |};
                  ar_body := VObj [] |}.
Proof.
  assert (Hheader :
    headers {| statusCode := 200;
               headers := {[ lit "content-type" := lit "Application/JSON; charset=UTF-8" ]};
               chunks := lit "{}" |} !! lit "content-type"
      = Some (lit "Application/JSON; charset=UTF-8")) by (vm_compute; reflexivity).
  apply (on_end_decoding (parse_among [VObj []]) _ _ Hheader).
  exists [], (lit "; charset=utf-8"). reflexivity.
Defined.

(** X10, with a source of coins that never exceeds 0.5. *)
Lemma AlgoliaSearch_keeps_order_witness :
  hosts (AlgoliaSearch (VStr (lit "APP2")) (VStr (lit "KEY2")) VUndefined
           (Some other_hosts) no_reversal (first_client three_hosts).2).2
    = three_hosts ++ other_hosts.
Proof.
  apply (AlgoliaSearch_keeps_order (VStr (lit "APP2")) (VStr (lit "KEY2")) VUndefined
           other_hosts no_reversal (first_client three_hosts).2).
  intros k. reflexivity.
Defined.

(** X13, for an objectID with a space and a slash. *)
Lemma object_url_segments_witness :
  ∃ path path',
    calls (saveObject stringify (parse_among [VObj []])
             (always (json_response 200 (VObj [])))
             (books (first_client three_hosts).1) book_one true
             (first_client three_hosts).2).1
      = [{| method := lit "PUT"; url := path; body := book_one |}] ∧
    split slash path = [[]; lit "1"; lit "indexes"; lit "books"; lit "a%20b%2Fc"] ∧
    calls (partialUpdateObject stringify (parse_among [VObj []])
             (always (json_response 200 (VObj [])))
             (books (first_client three_hosts).1) book_one true
             (first_client three_hosts).2).1
      = [{| method := lit "POST"; url := path'; body := book_one |}] ∧
    split slash path'
      = [[]; lit "1"; lit "indexes"; lit "books"; lit "a%20b%2Fc"; lit "partial"].
Proof.
  apply (object_url_segments stringify (parse_among [VObj []])
           (always (json_response 200 (VObj [])))
           (books (first_client three_hosts).1) true (first_client three_hosts).2
           book_one (VStr (lit "a b/c")) (lit "books") (lit "a%20b%2Fc"));
    reflexivity.
Defined.

(** X14, for the same object. *)
Lemma saveObject_as_addObject_witness :
  saveObject stringify (parse_among [VObj []]) (always (json_response 200 (VObj [])))
      (books (first_client three_hosts).1) book_one true (first_client three_hosts).2
    = addObject stringify (parse_among [VObj []]) (always (json_response 200 (VObj [])))
        (books (first_client three_hosts).1) book_one true (VStr (lit "a b/c"))
        (first_client three_hosts).2.
Proof.
  apply (saveObject_as_addObject stringify (parse_among [VObj []])
           (always (json_response 200 (VObj [])))
           (books (first_client three_hosts).1) true (first_client three_hosts).2
           book_one (VStr (lit "a b/c"))).
  - reflexivity.
  - discriminate.
Defined.

(** X15, for an object that has a title only. *)
Lemma objectID_missing_witness :
  calls (saveObject stringify (parse_among [VObj []])
           (always (json_response 200 (VObj [])))
           (books (first_client three_hosts).1)
           (VObj [(lit "title", VStr (lit "Emma"))]) true
           (first_client three_hosts).2).1
    = [{| method := lit "PUT"; url := lit "/1/indexes/books/undefined";
          body := VObj [(lit "title", VStr (lit "Emma"))] |}].
Proof.
  apply (objectID_missing stringify (parse_among [VObj []])
           (always (json_response 200 (VObj [])))
           (books (first_client three_hosts).1) true (first_client three_hosts).2
           (VObj [(lit "title", VStr (lit "Emma"))]) (lit "books"));
    reflexivity.
Defined.

(** X16, for a batch of an object and [null]. *)
Lemma addObjects_batch_witness :
  ∃ requests,
    calls (addObjects stringify (parse_among [VObj []])
             (always (json_response 200 (VObj [])))
             (books (first_client three_hosts).1) [book_one; VNull] true
             (first_client three_hosts).2).1
      = [{| method := lit "POST"; url := lit "/1/indexes/books/batch";
            body := VObj [(lit "requests", VArr requests)] |}] ∧
    length requests = 2%nat.
Proof.
  destruct (addObjects_batch stringify (parse_among [VObj []])
              (always (json_response 200 (VObj [])))
              (books (first_client three_hosts).1) true (first_client three_hosts).2
              [book_one; VNull] (lit "books") eq_refl) as (requests & Hcalls & Hlen & _).
  exists requests. split; [exact Hcalls|exact Hlen].
Defined.

(** X17, for the empty array without a callback and for the number 0. *)
Lemma deleteObject_cases_witness :
  deleteObject stringify (parse_among [VObj []]) (always (json_response 200 (VObj [])))
      (books (first_client three_hosts).1) (VArr []) false (first_client three_hosts).2
    = ((first_client three_hosts).2, Uncaught TypeError) ∧
  calls (deleteObject stringify (parse_among [VObj []])
           (always (json_response 200 (VObj [])))
           (books (first_client three_hosts).1) (VNum 0) false
           (first_client three_hosts).2).1
    = [{| method := lit "DELETE"; url := lit "/1/indexes/books/0";
          body := VUndefined |}].
Proof.
  split.
  - apply (deleteObject_cases stringify (parse_among [VObj []])
             (always (json_response 200 (VObj [])))
             (books (first_client three_hosts).1) false (first_client three_hosts).2
             (VArr [])).
    by right.
  - apply (proj2 (proj2 (deleteObject_cases stringify (parse_among [VObj []])
             (always (json_response 200 (VObj [])))
             (books (first_client three_hosts).1) false (first_client three_hosts).2
             (VNum 0))) VUndefined (lit "books") (lit "0")); try reflexivity;
      discriminate.
Defined.

(** X18, for a task that is published at the third check. *)
Lemma waitTask_resolved_witness :
  let c := (first_client [lit "a.example.com"]).1 in
  let w0 := (first_client [lit "a.example.com"]).2 in
  let ask := _jsonRequest stringify (parse_among task_bodies) (scripted pending_script)
               c (status_check (lit "books") (VNum 7)) in
  let w3 := (ask (ask (ask w0).1).1).1 in
  ∃ name k wk r,
    encodeURIComponent (indexName (books c)) = Some name ∧
    (k < 3)%nat ∧
    polled stringify (parse_among task_bodies) (scripted pending_script)
      (as_ (books c)) (status_check name (VNum 7)) k w0 wk ∧
    _jsonRequest stringify (parse_among task_bodies) (scripted pending_script)
      (as_ (books c)) (status_check name (VNum 7)) wk = (w3, Resolved r) ∧
    content {| error := false; content := task_published |} = cr_body r ∧
    (error {| error := false; content := task_published |} = false ↔ is_published r) ∧
    calls w3 = calls w0 ++ replicate (S k) (status_check name (VNum 7)).
Proof.
  intros c w0 ask w3.
  apply (waitTask_resolved stringify (parse_among task_bodies) (scripted pending_script)
           (books c) (VNum 7) 3 w0 w3 {| error := false; content := task_published |}).
  vm_compute. reflexivity.
Defined.

(** X19, after two pending answers. *)
Lemma waitTask_keeps_polling_witness :
  let c := (first_client [lit "a.example.com"]).1 in
  let w0 := (first_client [lit "a.example.com"]).2 in
  let ask := _jsonRequest stringify (parse_among task_bodies) (scripted pending_script)
               c (status_check (lit "books") (VNum 7)) in
  let w2 := (ask (ask w0).1).1 in
  waitTask stringify (parse_among task_bodies) (scripted pending_script)
      2 (books c) (VNum 7) w0 = (w2, Unfinished) ∧
  calls w2 = calls w0 ++ replicate 2 (status_check (lit "books") (VNum 7)) ∧
  ∀ fuel,
    waitTask stringify (parse_among task_bodies) (scripted pending_script)
        (2 + fuel) (books c) (VNum 7) w0
      = waitTask stringify (parse_among task_bodies) (scripted pending_script)
          fuel (books c) (VNum 7) w2.
Proof.
  intros c w0 ask w2.
  apply (waitTask_keeps_polling stringify (parse_among task_bodies)
           (scripted pending_script) (books c) (VNum 7) (lit "books") 2 w0 w2 eq_refl).
  apply (polled_more stringify (parse_among task_bodies) (scripted pending_script)
           (as_ (books c)) (status_check (lit "books") (VNum 7))
           1 w0 (ask w0).1 w2 (answered task_pending)).
  - vm_compute. reflexivity.
  - split; [reflexivity|]. do 2 eexists. repeat split; reflexivity.
  - apply (polled_more stringify (parse_among task_bodies) (scripted pending_script)
             (as_ (books c)) (status_check (lit "books") (VNum 7))
             0 (ask w0).1 w2 w2 (answered task_pending)).
    + vm_compute. reflexivity.
    + split; [reflexivity|]. do 2 eexists. repeat split; reflexivity.
    + constructor.
Defined.

